(** * Sumnation.js: a shallow embedding and its verification

    The program is a single JavaScript file, [sumnation.js].  Every value it
    computes with is a JavaScript number, that is an IEEE-754 binary64
    floating-point number.  The embedding keeps that type: a [number] is one
    of Rocq's primitive binary64 floats, whose operations the kernel
    evaluates exactly as the hardware does and which the library specifies
    through [SpecFloat].  Loops and recursion are given fuel: a run that is
    out of fuel yields [None]; a call terminates when some amount of fuel
    yields a result and diverges when none does. *)

From Stdlib Require Import ZArith Lia List Bool Floats.
Import ListNotations.

Set Warnings "-inexact-float".

(** ** JavaScript numbers and their operators *)

Definition number : Type := float.

Declare Scope js_scope.
Delimit Scope js_scope with js.
Bind Scope js_scope with number.

(** The remainder operator [%] (ECMAScript, Number::remainder) on the exact
    representation of two numbers [n] and [d], case by case as the language
    defines it: NaN if either is NaN; NaN if [n] is infinite; [n] if [d] is
    infinite; NaN if [d] is a zero; [n] if [n] is a zero; otherwise
    [n - d * q] with [q] the quotient [n / d] truncated towards zero, a zero
    result taking the sign of [n].  The remainder of two finite numbers is
    always a number, so nothing is rounded. *)
Definition SFrem (n d : spec_float) : spec_float :=
  match n, d with
  | S754_nan, _ | _, S754_nan => S754_nan
  | S754_infinity _, _ => S754_nan
  | _, S754_infinity _ => n
  | _, S754_zero _ => S754_nan
  | S754_zero _, _ => n
  | S754_finite sn mn en, S754_finite sd md ed =>
      let ez := Z.min en ed in
      let r := Z.rem (Z.pos (fst (shl_align mn en ez)))
                     (Z.pos (fst (shl_align md ed ez))) in
      binary_normalize prec emax (cond_Zopp sn r) ez sn
  end.

Definition js_rem (n d : number) : number :=
  SF2Prim (SFrem (Prim2SF n) (Prim2SF d)).

(** [a > b] is [b < a]; both are false as soon as one side is NaN. *)
Definition js_gt (a b : number) : bool := PrimFloat.ltb b a.

Notation "x + y" := (PrimFloat.add x y) : js_scope.
Notation "x - y" := (PrimFloat.sub x y) : js_scope.
Notation "x * y" := (PrimFloat.mul x y) : js_scope.
Notation "x / y" := (PrimFloat.div x y) : js_scope.
Infix "mod" := js_rem : js_scope.
Notation "x <= y" := (PrimFloat.leb x y) : js_scope.
Notation "x > y" := (js_gt x y) : js_scope.
Notation "x == y" := (PrimFloat.eqb x y) (at level 70, no associativity) : js_scope.
Notation "x === y" := (PrimFloat.eqb x y) (at level 70, no associativity) : js_scope.

(** Number literals of the source. *)
Definition n0 : number := 0%float.
Definition n1 : number := 1%float.
Definition n2 : number := 2%float.
Definition n3 : number := 3%float.
Definition n4 : number := 4%float.

Local Open Scope js_scope.

(** ** The summation engine (sumnation.js, lines 84-94) *)

(** The [while] loop of [sumnation]: [i] is the cursor, [answer] the
    accumulator. *)
Fixpoint sumnation_loop (fuel : nat) (f : number -> number)
  (filter : number -> bool) (next : number -> number)
  (b i answer : number) : option number :=
  match fuel with
  | O => None
  | S fuel' =>
      if i <= b then
        sumnation_loop fuel' f filter next b (next i)
          (if filter i then answer + f i else answer)
      else Some answer
  end.

Definition sumnation (fuel : nat) (f : number -> number)
  (filter : number -> bool) (a : number) (next : number -> number)
  (b : number) : option number :=
  sumnation_loop fuel f filter next b a n0.

(** A run of the engine that terminates, and one that never does. *)
Definition returns {A : Type} (run : nat -> option A) (v : A) : Prop :=
  exists fuel, run fuel = Some v.

Definition terminates {A : Type} (run : nat -> option A) : Prop :=
  exists fuel v, run fuel = Some v.

Definition diverges {A : Type} (run : nat -> option A) : Prop :=
  forall fuel, run fuel = None.

(** The same loop, recording every call it makes to one of its three
    function arguments, in order. *)
Inductive call : Type :=
| call_filter (x : number)
| call_f (x : number)
| call_next (x : number).

Fixpoint sumnation_loop_traced (fuel : nat) (f : number -> number)
  (filter : number -> bool) (next : number -> number)
  (b i answer : number) (calls : list call) : option (number * list call) :=
  match fuel with
  | O => None
  | S fuel' =>
      if i <= b then
        let calls1 := calls ++ [call_filter i] in
        let '(answer', calls2) :=
          if filter i then (answer + f i, calls1 ++ [call_f i])
          else (answer, calls1) in
        sumnation_loop_traced fuel' f filter next b (next i) answer'
          (calls2 ++ [call_next i])
      else Some (answer, calls)
  end.

Definition sumnation_traced (fuel : nat) (f : number -> number)
  (filter : number -> bool) (a : number) (next : number -> number)
  (b : number) : option (number * list call) :=
  sumnation_loop_traced fuel f filter next b a n0 [].

(** ** The four wrappers (lines 100-143) *)

Definition add (fuel : nat) (a b : number) : option number :=
  sumnation fuel (fun x => x) (fun x => true) a (fun x => x + n1) b.

Definition filtered_add (fuel : nat) (filter : number -> bool)
  (a b : number) : option number :=
  sumnation fuel (fun x => x) filter a (fun x => x + n1) b.

Definition addition (fuel : nat) (f : number -> number)
  (a b : number) : option number :=
  sumnation fuel f (fun x => true) a (fun x => x + n1) b.

Definition filtered_addition (fuel : nat) (f : number -> number)
  (filter : number -> bool) (a b : number) : option number :=
  sumnation fuel f filter a (fun x => x + n1) b.

(** ** The demonstration computations (lines 147-212)

    [simpsons_rule] and [coprime] are embedded here.
    [inverse_exponentiation], [riemann_zeta_function] and
    [gamma_expression] rest on the exponentiation operator; they are
    embedded further down, over an arbitrary exponentiation. *)

Definition lower_limit : number := 1%float.
Definition upper_limit : number := 1000000%float.

(** [simpsons_rule] and its two local functions [y] and
    [simpson_coefficient], which close over [f], [a] and the step [h]. *)
Definition simpson_y (f : number -> number) (a h : number)
  (k : number) : number :=
  f (a + (k * h)).

Definition simpson_coefficient (f : number -> number) (a h : number)
  (k : number) : number :=
  if k === n0 then simpson_y f a h k
  else if k mod n2 === n0 then n2 * simpson_y f a h k
  else n4 * simpson_y f a h k.

Definition simpsons_rule (fuel : nat) (f : number -> number)
  (a b n : number) : option number :=
  let h := (b - a) / n in
  option_map (fun s => (h / n3) * s)
    (addition fuel (simpson_coefficient f a h) n0 n).

(** The recursive [gcd] local to [coprime]. *)
Fixpoint gcd (fuel : nat) (a b : number) : option number :=
  match fuel with
  | O => None
  | S fuel' => if b == n0 then Some a else gcd fuel' b (a mod b)
  end.

Definition coprime (fuel : nat) (n : number) : number -> option bool :=
  fun i => option_map (fun g => g == n1) (gcd fuel i n).

(** The integrand of the script (line 218). *)
Definition cube (x : number) : number := x * x * x.

(** ** Exact values of numbers

    Every finite binary64 number is an integer multiple of [2^-1074].  Its
    [SFrank] is that multiple; the infinities are ranked beyond every finite
    number, so that the order of two numbers that are not NaN is the order
    of their ranks. *)

Definition SFrank (x : spec_float) : Z :=
  match x with
  | S754_finite s m e => cond_Zopp s (Z.pos m * 2 ^ (e - emin))
  | S754_infinity s => cond_Zopp s (2 ^ 2100)
  | _ => 0
  end%Z.

Definition SFis_nan (x : spec_float) : bool :=
  match x with S754_nan => true | _ => false end.

Definition SFis_finite (x : spec_float) : bool :=
  match x with S754_zero _ | S754_finite _ _ _ => true | _ => false end.

(** A right shift that has lost no bit so far. *)
Definition shr_exact (m : positive) : shr_record :=
  {| shr_m := Z.pos m; shr_r := false; shr_s := false |}.

(** The canonical representation of [(-1)^s * q * 2^j]. *)
Definition SFcanon (s : bool) (q : positive) (j : Z) : spec_float :=
  let E := fexp prec emax (Z.pos (digits2_pos q) + j) in
  S754_finite s (Z.to_pos (Z.pos q * 2 ^ (j - E))) E.

(** [q * 2^j] is a binary64 value: at most 53 significant bits and an
    exponent in range. *)
Definition representable (q : positive) (j : Z) : Prop :=
  (Z.pos (digits2_pos q) <= prec /\ emin <= j
   /\ fexp prec emax (Z.pos (digits2_pos q) + j) <= emax - prec)%Z.

(** The number an integer literal denotes (the nearest binary64 value). *)
Definition Z2SF (z : Z) : spec_float := binary_normalize prec emax z 0 false.

Definition Z2F (z : Z) : number := SF2Prim (Z2SF z).

(** The integers of magnitude at most [2^53]: all of them are numbers, and
    they are the largest such interval around zero. *)
Definition safe (z : Z) : Prop := (Z.abs z <= 2 ^ 53)%Z.

Definition rank (x : number) : Z := SFrank (Prim2SF x).

(** [Number.isNaN], [Number.isFinite], [Number.isInteger], and the integer
    an integral number stands for. *)
Definition isNaN (x : number) : bool := SFis_nan (Prim2SF x).

Definition isFinite (x : number) : bool := SFis_finite (Prim2SF x).

Definition isInteger (x : number) : bool :=
  isFinite x && (rank x mod 2 ^ 1074 =? 0)%Z.

Definition to_Z (x : number) : Z := (rank x / 2 ^ 1074)%Z.

(** ** Specifications the claims are compared with *)

(** The integers [a, a+1, ..., a+len-1]. *)
Fixpoint Zrange (a : Z) (len : nat) : list Z :=
  match len with
  | O => []
  | S len' => a :: Zrange (a + 1) len'
  end.

(** What the engine accumulates over the integer cursors in [ks], from the
    accumulator [acc]: terms are added in cursor order. *)
Definition accumulate (f : number -> number) (filter : number -> bool)
  (ks : list Z) (acc : number) : number :=
  fold_left (fun answer k =>
               if filter (Z2F k) then answer + f (Z2F k) else answer) ks acc.

(** The closed form of [a + (a+1) + ... + k]. *)
Definition arithmetic_series (a k : Z) : Z := ((k - a + 1) * (a + k) / 2)%Z.

(** The coefficient the specification gives the [k]-th sample: 1 at
    [k = 0], 2 at every other even [k], 4 at every odd [k]. *)
Definition simpson_weight (k : Z) : number :=
  if (k =? 0)%Z then n1 else if Z.even k then n2 else n4.

(** [(h/3) * sum_{k=0}^{n} c(k) * f(a + k*h)], the sum taken from 0 upwards. *)
Definition simpson_formula (f : number -> number) (a b : number) (n : Z) : number :=
  let h := (b - a) / Z2F n in
  (h / n3) *
  fold_left (fun answer k => answer + simpson_weight k * f (a + (Z2F k * h)))
    (Zrange 0 (S (Z.to_nat n))) n0.

(** The composite Simpson rule of the textbooks, which weighs both end
    points by 1. *)
Definition textbook_weight (n k : Z) : number :=
  if ((k =? 0) || (k =? n))%Z then n1 else if Z.even k then n2 else n4.

Definition textbook_simpson (f : number -> number) (a b : number) (n : Z) : number :=
  let h := (b - a) / Z2F n in
  (h / n3) *
  fold_left (fun answer k => answer + textbook_weight n k * f (a + (Z2F k * h)))
    (Zrange 0 (S (Z.to_nat n))) n0.

(** [x] is within [tol] of [y]. *)
Definition within (tol x y : number) : bool := (PrimFloat.abs (x - y) <= tol)%js.

(** A successor that first steps back: from 0 to -1, and from anywhere else
    five forward. *)
Definition detour (x : number) : number :=
  if x == n0 then (-1)%float else x + 5%float.

(** The Euclidean recursion of the specification, on the integers:
    [gcd(a, 0) = a] and [gcd(a, b) = gcd(b, a mod b)], where [mod] is the
    remainder that [%] computes (truncating, with the sign of the dividend;
    on non-negative operands every convention agrees). *)
Inductive euclid : Z -> Z -> Z -> Prop :=
| euclid_zero (a : Z) : euclid a 0 a
| euclid_step (a b g : Z) :
    b <> 0%Z -> euclid b (Z.rem a b) g -> euclid a b g.

(** The same recursion with the mathematical [mod], whose result has the
    sign of the divisor: on non-negative operands it is the remainder that
    [%] computes, with a negative dividend it is not. *)
Inductive euclid_mod : Z -> Z -> Z -> Prop :=
| euclid_mod_zero (a : Z) : euclid_mod a 0 a
| euclid_mod_step (a b g : Z) :
    b <> 0%Z -> euclid_mod b (a mod b)%Z g -> euclid_mod a b g.

(** * Further code and the notions its properties are stated with *)

(** ** The zeta computations (lines 155-173)

    These rest on the exponentiation operator, whose result the language
    leaves to the implementation (an approximation of the power); it is a
    parameter here. *)
Section Exponentiation.
Variable pow : number -> number -> number.

Definition inverse_exponentiation (exp : number) : number -> number :=
  fun n => n1 / pow n exp.

Definition riemann_zeta_function (fuel : nat) (s : number) : option number :=
  addition fuel (inverse_exponentiation s) lower_limit upper_limit.

Definition gamma_expression (fuel : nat) (m : number) : option number :=
  option_map (fun zeta => pow (-1)%float m * (zeta / m))
    (riemann_zeta_function fuel m).
End Exponentiation.

(** ** The engine with functions that may not return

    A function argument of [sumnation] is JavaScript code of its own: it
    may fail to return, and then so does the engine.  Here the three
    function arguments yield [None] when they do not return. *)
Fixpoint sumnation_loop_opt (fuel : nat) (f : number -> option number)
  (filter : number -> option bool) (next : number -> option number)
  (b i answer : number) : option number :=
  match fuel with
  | O => None
  | S fuel' =>
      if i <= b then
        match filter i with
        | None => None
        | Some keep =>
            match (if keep then option_map (fun y => answer + y) (f i)
                   else Some answer) with
            | None => None
            | Some answer' =>
                match next i with
                | None => None
                | Some i' => sumnation_loop_opt fuel' f filter next b i' answer'
                end
            end
        end
      else Some answer
  end.

Definition sumnation_opt (fuel : nat) (f : number -> option number)
  (filter : number -> option bool) (a : number)
  (next : number -> option number) (b : number) : option number :=
  sumnation_loop_opt fuel f filter next b a n0.

Definition filtered_add_opt (fuel : nat) (filter : number -> option bool)
  (a b : number) : option number :=
  sumnation_opt fuel (fun x => Some x) filter a (fun x => Some (x + n1)) b.

(** The script's [sum_of_coprimes] (line 223). *)
Definition sum_of_coprimes (fuel : nat) : option number :=
  filtered_add_opt fuel (coprime fuel upper_limit) lower_limit upper_limit.

(** The sum of the integers in [ks] that are coprime to [n]. *)
Definition coprime_sum (n : Z) (ks : list Z) (acc : Z) : Z :=
  fold_left (fun s k => if (Z.gcd k n =? 1)%Z then (s + k)%Z else s) ks acc.

(** The sum of the integers in [ks] that pass [filter], from [acc]. *)
Definition filtered_sum (filter : number -> bool) (ks : list Z) (acc : Z) : Z :=
  fold_left (fun s k => if filter (Z2F k) then (s + k)%Z else s) ks acc.

(** A call the engine is entitled to make with bound [b]: each one is on a
    cursor [x <= b], and [f] is called only where [filter] holds. *)
Definition call_allowed (filter : number -> bool) (b : number) (c : call) : Prop :=
  match c with
  | call_filter x | call_next x => (x <= b) = true
  | call_f x => (x <= b) = true /\ filter x = true
  end.

(** The loop once more, recording its calls, and keeping the record when
    the fuel runs out: the second component is the calls made in the first
    [fuel] tests of the loop condition, whether or not the run has returned
    by then; the first is the result, if it has. *)
Fixpoint sumnation_loop_run (fuel : nat) (f : number -> number)
  (filter : number -> bool) (next : number -> number)
  (b i answer : number) (calls : list call) : option number * list call :=
  match fuel with
  | O => (None, calls)
  | S fuel' =>
      if i <= b then
        let calls1 := calls ++ [call_filter i] in
        let '(answer', calls2) :=
          if filter i then (answer + f i, calls1 ++ [call_f i])
          else (answer, calls1) in
        sumnation_loop_run fuel' f filter next b (next i) answer'
          (calls2 ++ [call_next i])
      else (Some answer, calls)
  end.

Definition sumnation_run (fuel : nat) (f : number -> number)
  (filter : number -> bool) (a : number) (next : number -> number)
  (b : number) : option number * list call :=
  sumnation_loop_run fuel f filter next b a n0 [].

(** * Binary64 arithmetic that is exact

    The lemmas of this part relate the operations of [SpecFloat] to integer
    arithmetic on ranks: comparisons are comparisons of ranks, and rounding
    a value that is representable returns it unchanged. *)

Local Open Scope Z_scope.

(** Membership in the integers on which arithmetic is exact. *)
Ltac solve_safe :=
  unfold safe in *; change (2 ^ 53) with 9007199254740992 in *; lia.

Module Binary64.

(** ** Significant bits *)

Lemma digits2_pos_bounds (m : positive) :
  2 ^ (Z.pos (digits2_pos m) - 1) <= Z.pos m < 2 ^ Z.pos (digits2_pos m).
Proof.
  induction m as [m IH | m IH |]; cbn [digits2_pos].
  - rewrite Pos2Z.inj_succ.
    replace (Z.succ (Z.pos (digits2_pos m)) - 1) with (Z.succ (Z.pos (digits2_pos m) - 1)) by lia.
    rewrite !Z.pow_succ_r by lia. lia.
  - rewrite Pos2Z.inj_succ.
    replace (Z.succ (Z.pos (digits2_pos m)) - 1) with (Z.succ (Z.pos (digits2_pos m) - 1)) by lia.
    rewrite !Z.pow_succ_r by lia. lia.
  - cbn. lia.
Qed.

Lemma digits2_pos_unique (m : positive) (d : Z) :
  2 ^ (d - 1) <= Z.pos m < 2 ^ d -> Z.pos (digits2_pos m) = d.
Proof.
  intros [Hl Hu].
  pose proof (digits2_pos_bounds m) as [Hl' Hu'].
  set (d' := Z.pos (digits2_pos m)) in *.
  assert (0 < d).
  { destruct (Z.ltb_spec 0 d); [assumption|].
    rewrite (Z.pow_neg_r 2 d) in Hu by (destruct (Z.eqb_spec d 0); [subst; cbn in Hu|]; lia). lia. }
  destruct (Z.lt_trichotomy d' d) as [L | [E | G]]; [exfalso | exact E | exfalso].
  - assert (2 ^ d' <= 2 ^ (d - 1)) by (apply Z.pow_le_mono_r; lia). lia.
  - assert (2 ^ d <= 2 ^ (d' - 1)) by (apply Z.pow_le_mono_r; lia). lia.
Qed.

Lemma digits2_pos_shift (q m : positive) (k : Z) :
  0 <= k -> Z.pos m = Z.pos q * 2 ^ k ->
  Z.pos (digits2_pos m) = Z.pos (digits2_pos q) + k.
Proof.
  intros Hk Hm. apply digits2_pos_unique.
  pose proof (digits2_pos_bounds q) as [Hl Hu].
  rewrite Hm.
  replace (Z.pos (digits2_pos q) + k - 1) with ((Z.pos (digits2_pos q) - 1) + k) by lia.
  rewrite !Z.pow_add_r by lia.
  assert (0 < 2 ^ k) by (apply Z.pow_pos_nonneg; lia).
  nia.
Qed.

Lemma digits2_pos_le (q : positive) (d : Z) :
  0 <= d -> Z.pos q < 2 ^ d -> Z.pos (digits2_pos q) <= d.
Proof.
  intros Hd Hq. pose proof (digits2_pos_bounds q) as [Hl _].
  destruct (Z.le_gt_cases (Z.pos (digits2_pos q)) d) as [L | G]; [exact L | exfalso].
  assert (2 ^ d <= 2 ^ (Z.pos (digits2_pos q) - 1)) by (apply Z.pow_le_mono_r; lia).
  lia.
Qed.

(** ** Valid representations and their ranks *)

Lemma bounded_inv m e :
  bounded prec emax m e = true ->
  emin <= e <= emax - prec /\ Z.pos (digits2_pos m) <= prec
  /\ (e = emin \/ Z.pos (digits2_pos m) = prec).
Proof.
  unfold bounded, canonical_mantissa, fexp.
  rewrite andb_true_iff, Z.eqb_eq, Z.leb_le. lia.
Qed.

Lemma bounded_canonical m e :
  bounded prec emax m e = true ->
  fexp prec emax (Z.pos (digits2_pos m) + e) = e /\ e <= emax - prec.
Proof.
  unfold bounded, canonical_mantissa.
  rewrite andb_true_iff, Z.eqb_eq, Z.leb_le. trivial.
Qed.

Lemma bounded_mantissa_lt m e :
  bounded prec emax m e = true -> Z.pos m < 2 ^ prec.
Proof.
  intros B. apply bounded_inv in B. destruct B as (_ & Hd & _).
  pose proof (digits2_pos_bounds m) as [_ Hu].
  eapply Z.lt_le_trans; [exact Hu|]. apply Z.pow_le_mono_r; lia.
Qed.

Lemma finite_rank_bounds m e :
  bounded prec emax m e = true ->
  0 < Z.pos m * 2 ^ (e - emin) < 2 ^ 2100.
Proof.
  intros H. apply bounded_inv in H. destruct H as (He & Hd & _).
  pose proof (digits2_pos_bounds m) as [_ Hm].
  assert (Hp : 0 < 2 ^ (e - emin)) by (apply Z.pow_pos_nonneg; lia).
  split; [lia|].
  assert (Z.pos m < 2 ^ prec).
  { eapply Z.lt_le_trans; [exact Hm|]. apply Z.pow_le_mono_r; lia. }
  assert (2 ^ (e - emin) <= 2 ^ (emax - prec - emin)) by (apply Z.pow_le_mono_r; lia).
  replace (2 ^ 2100) with (2 ^ prec * (2 ^ (emax - prec - emin) * 4)) by reflexivity.
  nia.
Qed.

Lemma finite_rank_lt m1 e1 m2 e2 :
  bounded prec emax m1 e1 = true -> bounded prec emax m2 e2 = true ->
  e1 < e2 -> Z.pos m1 * 2 ^ (e1 - emin) < Z.pos m2 * 2 ^ (e2 - emin).
Proof.
  intros H1 H2 He.
  apply bounded_inv in H1, H2.
  destruct H1 as (He1 & Hd1 & _), H2 as (He2 & _ & Hc2).
  assert (Hd2 : Z.pos (digits2_pos m2) = prec) by lia.
  pose proof (digits2_pos_bounds m1) as [_ Hm1].
  pose proof (digits2_pos_bounds m2) as [Hm2 _].
  rewrite Hd2 in Hm2.
  assert (Z.pos m1 < 2 ^ prec).
  { eapply Z.lt_le_trans; [exact Hm1|]. apply Z.pow_le_mono_r; lia. }
  replace (e2 - emin) with ((e1 - emin) + (e2 - e1)) by lia.
  rewrite Z.pow_add_r by lia.
  assert (0 < 2 ^ (e1 - emin)) by (apply Z.pow_pos_nonneg; lia).
  assert (2 ^ 1 <= 2 ^ (e2 - e1)) by (apply Z.pow_le_mono_r; lia).
  change (2 ^ (prec - 1)) with (2 ^ 52) in Hm2.
  change (2 ^ prec) with (2 * 2 ^ 52) in H.
  change (2 ^ 1) with 2 in *.
  set (P := 2 ^ (e1 - emin)) in *. set (K := 2 ^ (e2 - e1)) in *.
  set (C := 2 ^ 52) in *.
  apply Z.lt_le_trans with (2 * C * P); [nia|].
  apply Z.le_trans with (C * (P * K)); [nia|].
  apply Z.mul_le_mono_nonneg_r; nia.
Qed.

(** ** Comparison *)

Lemma SFcompare_rank x y :
  valid_binary x = true -> valid_binary y = true ->
  SFis_nan x = false -> SFis_nan y = false ->
  SFcompare x y = Some (SFrank x ?= SFrank y).
Proof.
  intros Vx Vy Nx Ny.
  destruct x as [sx | sx | | sx mx ex], y as [sy | sy | | sy my ey];
    try discriminate; cbn [valid_binary] in Vx, Vy.
  all: try (pose proof (finite_rank_bounds _ _ Vx) as Bx).
  all: try (pose proof (finite_rank_bounds _ _ Vy) as By).
  all: cbn [SFcompare SFrank].
  all: try (destruct sx); try (destruct sy); cbn [cond_Zopp]; f_equal; symmetry.
  all: try reflexivity.
  all: try (apply Z.compare_lt_iff; lia).
  all: try (apply Z.compare_gt_iff; lia).
  - rewrite Z.compare_opp.
    destruct (Z.compare_spec ex ey) as [E | L | G].
    + subst ey. rewrite <- Zmult_compare_compat_r by (apply Z.lt_gt, Z.pow_pos_nonneg; apply bounded_inv in Vx; lia).
      exact (Pos.compare_antisym mx my).
    + apply Z.compare_gt_iff. now apply finite_rank_lt.
    + apply Z.compare_lt_iff. now apply finite_rank_lt.
  - destruct (Z.compare_spec ex ey) as [E | L | G].
    + subst ey. rewrite <- Zmult_compare_compat_r by (apply Z.lt_gt, Z.pow_pos_nonneg; apply bounded_inv in Vx; lia).
      reflexivity.
    + apply Z.compare_lt_iff. now apply finite_rank_lt.
    + apply Z.compare_gt_iff. now apply finite_rank_lt.
Qed.

Lemma SFcompare_nan_l x y : SFis_nan x = true -> SFcompare x y = None.
Proof. destruct x; try discriminate. reflexivity. Qed.

Lemma SFcompare_nan_r x y : SFis_nan y = true -> SFcompare x y = None.
Proof. destruct y; try discriminate. now destruct x. Qed.

(** Two numbers of the same non-zero rank are the same number. *)
Lemma SFrank_inj (x y : spec_float) :
  valid_binary x = true -> valid_binary y = true ->
  SFis_nan x = false -> SFis_nan y = false ->
  SFrank x = SFrank y -> SFrank x <> 0 -> x = y.
Proof.
  intros Vx Vy Nx Ny E Nz.
  pose proof (SFcompare_rank x y Vx Vy Nx Ny) as C.
  rewrite E, Z.compare_refl in C.
  destruct x as [sx | sx | | sx mx ex], y as [sy | sy | | sy my ey];
    try discriminate; try (now cbn in Nz); cbn [SFcompare] in C.
  - destruct sx, sy; (reflexivity || discriminate).
  - destruct sx; discriminate.
  - destruct sy; discriminate.
  - destruct sx, sy; try discriminate.
    + destruct (Z.compare_spec ex ey) as [-> | L | G]; try discriminate.
      injection C as C. apply (f_equal CompOpp) in C. rewrite CompOpp_involutive in C.
      apply Pos.compare_eq in C. now subst.
    + destruct (Z.compare_spec ex ey) as [-> | L | G]; try discriminate.
      injection C as C. apply Pos.compare_eq in C. now subst.
Qed.

(** ** Shifts *)

Lemma iter_xO_value (m : positive) (d : positive) :
  Z.pos (Pos.iter xO m d) = Z.pos m * 2 ^ Z.pos d.
Proof.
  change (Pos.iter xO m d) with (shift_pos d m).
  rewrite shift_pos_correct, Z.pow_pos_fold. lia.
Qed.

Lemma shl_align_spec (m : positive) (e e' : Z) :
  e' <= e ->
  Z.pos (fst (shl_align m e e')) = Z.pos m * 2 ^ (e - e')
  /\ snd (shl_align m e e') = e'.
Proof.
  intros He. unfold shl_align.
  destruct (e' - e) as [| p | p] eqn:D; cbn [fst snd].
  - replace (e - e') with 0 by lia. split; lia.
  - lia.
  - rewrite iter_xO_value. replace (e - e') with (Z.pos p) by lia.
    split; [reflexivity | lia].
Qed.

Lemma iter_pos_nat {A : Type} (f : A -> A) (n : positive) (x : A) :
  iter_pos f n x = Nat.iter (Pos.to_nat n) f x.
Proof.
  revert x. induction n as [n IH | n IH |]; intros x; cbn [iter_pos].
  - rewrite !IH, Pos2Nat.inj_xI.
    replace (S (2 * Pos.to_nat n))%nat with (Pos.to_nat n + S (Pos.to_nat n))%nat by lia.
    rewrite Nat.iter_add, Nat.iter_succ_r. reflexivity.
  - rewrite !IH, Pos2Nat.inj_xO.
    replace (2 * Pos.to_nat n)%nat with (Pos.to_nat n + Pos.to_nat n)%nat by lia.
    rewrite Nat.iter_add. reflexivity.
  - reflexivity.
Qed.

Lemma iter_shr_1_exact (k : nat) (q m : positive) :
  Z.pos m = Z.pos q * 2 ^ Z.of_nat k ->
  Nat.iter k shr_1 (shr_exact m) = shr_exact q.
Proof.
  revert q m. induction k as [| k IH]; intros q m Hm.
  - change (Z.of_nat 0) with 0 in Hm. rewrite Z.pow_0_r, Z.mul_1_r in Hm.
    injection Hm as ->. reflexivity.
  - rewrite Nat.iter_succ, (IH (xO q) m).
    + reflexivity.
    + rewrite Hm, Nat2Z.inj_succ, Z.pow_succ_r by lia. lia.
Qed.

Lemma shr_exact_spec (q m : positive) (e n : Z) :
  0 <= n -> Z.pos m = Z.pos q * 2 ^ n ->
  shr (shr_exact m) e n = (shr_exact q, e + n).
Proof.
  intros Hn Hm. unfold shr. destruct n as [| p | p].
  - rewrite Z.pow_0_r, Z.mul_1_r in Hm. injection Hm as ->.
    now rewrite Z.add_0_r.
  - rewrite iter_pos_nat. f_equal. apply iter_shr_1_exact.
    rewrite positive_nat_Z. exact Hm.
  - lia.
Qed.

(** ** Rounding a representable value *)

Lemma binary_round_aux_exact (s : bool) (q m : positive) (e n : Z) :
  0 <= n -> Z.pos m = Z.pos q * 2 ^ n ->
  fexp prec emax (Z.pos (digits2_pos m) + e) = e + n ->
  e + n <= emax - prec ->
  binary_round_aux prec emax s (Z.pos m) e loc_Exact = S754_finite s q (e + n).
Proof.
  intros Hn Hm HE Hmax.
  unfold binary_round_aux, shr_fexp.
  cbn [Zdigits2 shr_record_of_loc].
  rewrite HE. replace (e + n - e) with n by lia.
  fold (shr_exact m). rewrite (shr_exact_spec q m e n Hn Hm).
  cbn [shr_exact shr_m loc_of_shr_record round_nearest_even Zdigits2 shr_record_of_loc].
  rewrite (digits2_pos_shift q m n Hn Hm) in HE.
  replace (Z.pos (digits2_pos q) + (e + n)) with (Z.pos (digits2_pos q) + n + e) by lia.
  rewrite HE, Z.sub_diag. cbn [shr shr_m].
  apply Z.leb_le in Hmax. rewrite Hmax. reflexivity.
Qed.

Lemma binary_round_exact (s : bool) (q m : positive) (k e : Z) :
  0 <= k -> Z.pos m = Z.pos q * 2 ^ k ->
  Z.pos (digits2_pos q) <= prec -> emin <= e + k ->
  fexp prec emax (Z.pos (digits2_pos q) + (e + k)) <= emax - prec ->
  binary_round prec emax s m e = SFcanon s q (e + k).
Proof.
  intros Hk Hm Hd He Hmax.
  unfold binary_round, SFcanon.
  rewrite (digits2_pos_shift q m k Hk Hm).
  replace (Z.pos (digits2_pos q) + k + e) with (Z.pos (digits2_pos q) + (e + k)) by lia.
  set (E := fexp prec emax (Z.pos (digits2_pos q) + (e + k))) in *.
  assert (HEle : E <= e + k) by (unfold E, fexp; lia).
  assert (Hpos : 0 < Z.pos q * 2 ^ (e + k - E)).
  { apply Z.mul_pos_pos; [lia | apply Z.pow_pos_nonneg; lia]. }
  destruct (Z.le_gt_cases E e) as [L | G].
  - destruct (shl_align_spec m e E L) as [Hv He'].
    destruct (shl_align m e E) as [mz ez]. cbn [fst snd] in Hv, He'. subst ez.
    assert (Hmz : Z.pos mz = Z.pos q * 2 ^ (e + k - E)).
    { rewrite Hv, Hm, <- Z.mul_assoc, <- Z.pow_add_r by lia. f_equal. f_equal. lia. }
    replace E with (E + 0) at 2 by lia.
    rewrite (binary_round_aux_exact s mz mz E 0); try lia.
    + rewrite Z.add_0_r. f_equal. rewrite <- Hmz. reflexivity.
    + rewrite (digits2_pos_shift q mz (e + k - E)) by (lia || assumption).
      rewrite Z.add_0_r. unfold E. f_equal. lia.
  - unfold shl_align. destruct (E - e) as [| p | p] eqn:D; try lia.
    remember (Z.to_pos (Z.pos q * 2 ^ (e + k - E))) as q' eqn:Hq'.
    assert (Hq : Z.pos q' = Z.pos q * 2 ^ (e + k - E)) by (subst q'; rewrite Z2Pos.id; lia).
    replace E with (e + Z.pos p) by lia.
    apply binary_round_aux_exact; try lia.
    + rewrite Hq, Hm, <- Z.mul_assoc, <- Z.pow_add_r by lia. f_equal. f_equal. lia.
    + rewrite (digits2_pos_shift q m k Hk Hm).
      replace (e + Z.pos p) with E by lia. unfold E. f_equal. lia.
Qed.

Lemma SFcanon_mantissa (q : positive) (j : Z) :
  representable q j ->
  let E := fexp prec emax (Z.pos (digits2_pos q) + j) in
  E <= j /\
  Z.pos (Z.to_pos (Z.pos q * 2 ^ (j - E))) = Z.pos q * 2 ^ (j - E).
Proof.
  intros (Hd & Hj & Hmax) E.
  assert (HE : E <= j) by (unfold E, fexp; lia).
  split; [exact HE|].
  rewrite Z2Pos.id; [reflexivity|].
  apply Z.mul_pos_pos; [lia | apply Z.pow_pos_nonneg; lia].
Qed.

Lemma SFcanon_valid (s : bool) (q : positive) (j : Z) :
  representable q j -> valid_binary (SFcanon s q j) = true.
Proof.
  intros R. destruct (SFcanon_mantissa q j R) as [HE Hm].
  destruct R as (Hd & Hj & Hmax).
  unfold SFcanon. cbn [valid_binary]. unfold bounded, canonical_mantissa.
  assert (Hk : 0 <= j - fexp prec emax (Z.pos (digits2_pos q) + j)) by lia.
  rewrite (digits2_pos_shift q _ _ Hk Hm).
  apply andb_true_iff. split.
  - apply Z.eqb_eq. f_equal. lia.
  - apply Z.leb_le. exact Hmax.
Qed.

Lemma SFcanon_rank (s : bool) (q : positive) (j : Z) :
  representable q j ->
  SFrank (SFcanon s q j) = cond_Zopp s (Z.pos q * 2 ^ (j - emin)).
Proof.
  intros R. destruct (SFcanon_mantissa q j R) as [HE Hm].
  destruct R as (Hd & Hj & Hmax).
  unfold SFcanon. cbn [SFrank]. rewrite Hm. f_equal.
  rewrite <- Z.mul_assoc, <- Z.pow_add_r; [f_equal; f_equal; lia | lia |].
  unfold fexp. lia.
Qed.

Lemma SFcanon_shift (s : bool) (q m : positive) (j k : Z) :
  0 <= k -> Z.pos m = Z.pos q * 2 ^ k -> representable m j ->
  SFcanon s m j = SFcanon s q (j + k).
Proof.
  intros Hk Hm R. destruct (SFcanon_mantissa m j R) as [HE _].
  unfold SFcanon. cbn zeta in HE.
  rewrite (digits2_pos_shift q m k Hk Hm) in *.
  replace (Z.pos (digits2_pos q) + (j + k)) with (Z.pos (digits2_pos q) + k + j) by lia.
  set (E := fexp prec emax (Z.pos (digits2_pos q) + k + j)) in *.
  f_equal. f_equal.
  rewrite Hm, <- Z.mul_assoc, <- Z.pow_add_r by lia. f_equal. f_equal. lia.
Qed.

Lemma pow2_mul_cancel (a b x y : Z) :
  0 <= x -> 0 <= y -> x <= y -> a * 2 ^ x = b * 2 ^ y -> a = b * 2 ^ (y - x).
Proof.
  intros Hx Hy Hxy H.
  replace y with ((y - x) + x) in H by lia.
  rewrite Z.pow_add_r, Z.mul_assoc in H by lia.
  apply Z.mul_cancel_r in H; [exact H|].
  apply Z.pow_nonzero; lia.
Qed.

(** Rounding a value that is representable is exact: the result is the
    canonical representation, whatever mantissa and exponent the value was
    given with. *)
Lemma binary_round_canon (s : bool) (m q : positive) (e j : Z) :
  emin <= e -> representable q j ->
  Z.pos m * 2 ^ (e - emin) = Z.pos q * 2 ^ (j - emin) ->
  binary_round prec emax s m e = SFcanon s q j.
Proof.
  intros He R Hv. pose proof R as (Hd & Hj & Hmax).
  destruct (Z.le_gt_cases e j) as [L | G].
  - apply pow2_mul_cancel in Hv; try lia.
    replace (j - emin - (e - emin)) with (j - e) in Hv by lia.
    replace j with (e + (j - e)) by lia.
    apply binary_round_exact; try lia; try assumption.
    + replace (e + (j - e)) with j by lia. exact Hmax.
  - symmetry in Hv. apply pow2_mul_cancel in Hv; try lia.
    replace (e - emin - (j - emin)) with (e - j) in Hv by lia.
    assert (Rm : representable m e).
    { pose proof (digits2_pos_shift m q (e - j) ltac:(lia) Hv) as Hdq.
      repeat split; try lia.
      replace (Z.pos (digits2_pos m) + e) with (Z.pos (digits2_pos q) + j) by lia.
      exact Hmax. }
    destruct Rm as (Hdm & _ & Hmaxm).
    rewrite (binary_round_exact s m m 0 e); try lia.
    + rewrite Z.add_0_r.
      replace e with (j + (e - j)) at 1 by lia.
      symmetry. apply SFcanon_shift; try lia; assumption.
    + rewrite Z.add_0_r. exact Hmaxm.
Qed.

Lemma representable_small (q : positive) (j : Z) :
  Z.pos q < 2 ^ prec -> emin <= j <= emax - prec -> representable q j.
Proof.
  intros Hq Hj. pose proof (digits2_pos_le q prec ltac:(discriminate) Hq).
  unfold representable, fexp. lia.
Qed.

(** ** Integers of magnitude at most 2^53 *)

Lemma safe_representable (p : positive) :
  Z.pos p <= 2 ^ 53 ->
  exists q j, representable q j /\ 0 <= j /\ Z.pos p = Z.pos q * 2 ^ j.
Proof.
  intros Hp. destruct (Z.eq_dec (Z.pos p) (2 ^ 53)) as [E | N].
  - exists 1%positive, 53. split; [|split; [lia | rewrite E; reflexivity]].
    apply representable_small; [reflexivity | cbv; split; discriminate].
  - exists p, 0. split; [|split; [lia | now rewrite Z.pow_0_r, Z.mul_1_r]].
    apply representable_small; [change prec with 53; lia | cbv; split; discriminate].
Qed.

Lemma scaled_eq (a q j : Z) :
  0 <= j -> a = q * 2 ^ j -> a * 2 ^ (0 - emin) = q * 2 ^ (j - emin).
Proof.
  intros Hj ->. replace (j - emin) with (j + (0 - emin)) by lia.
  rewrite Z.pow_add_r; [ring | lia | cbv; discriminate].
Qed.

Lemma Z2SF_canon (z : Z) (s : bool) (p : positive) :
  z = cond_Zopp s (Z.pos p) -> Z.pos p <= 2 ^ 53 ->
  exists q j, representable q j
    /\ Z.pos p * 2 ^ (0 - emin) = Z.pos q * 2 ^ (j - emin)
    /\ Z2SF z = SFcanon s q j.
Proof.
  intros Hz Hp. destruct (safe_representable p Hp) as (q & j & R & Hj & Hq).
  exists q, j. split; [exact R|]. split; [now apply scaled_eq|].
  assert (Hr : binary_round prec emax s p 0 = SFcanon s q j).
  { apply binary_round_canon; [cbv; discriminate | exact R | now apply scaled_eq]. }
  subst z. destruct s; exact Hr.
Qed.

Lemma Z2SF_valid (z : Z) : safe z -> valid_binary (Z2SF z) = true.
Proof.
  unfold safe. intros Hz. destruct z as [| p | p]; [reflexivity | |].
  - destruct (Z2SF_canon (Z.pos p) false p eq_refl Hz) as (q & j & R & _ & ->).
    now apply SFcanon_valid.
  - destruct (Z2SF_canon (Z.neg p) true p eq_refl Hz) as (q & j & R & _ & ->).
    now apply SFcanon_valid.
Qed.

Lemma Z2SF_rank (z : Z) : safe z -> SFrank (Z2SF z) = z * 2 ^ (0 - emin).
Proof.
  unfold safe. intros Hz. destruct z as [| p | p]; [reflexivity | |].
  - destruct (Z2SF_canon (Z.pos p) false p eq_refl Hz) as (q & j & R & Hv & ->).
    rewrite SFcanon_rank by assumption. cbn [cond_Zopp]. now rewrite Hv.
  - destruct (Z2SF_canon (Z.neg p) true p eq_refl Hz) as (q & j & R & Hv & ->).
    rewrite SFcanon_rank by assumption. cbn [cond_Zopp]. rewrite <- Hv.
    rewrite <- Z.mul_opp_l. reflexivity.
Qed.

Lemma Z2SF_finite (z : Z) : safe z -> SFis_finite (Z2SF z) = true.
Proof.
  unfold safe. intros Hz. destruct z as [| p | p]; [reflexivity | |].
  - destruct (Z2SF_canon (Z.pos p) false p eq_refl Hz) as (q & j & R & Hv & ->).
    reflexivity.
  - destruct (Z2SF_canon (Z.neg p) true p eq_refl Hz) as (q & j & R & Hv & ->).
    reflexivity.
Qed.

Lemma cond_Zopp_sign (z : Z) :
  z <> 0 -> exists s p, z = cond_Zopp s (Z.pos p) /\ Z.abs z = Z.pos p.
Proof.
  destruct z as [| p | p]; intros Hz; [contradiction | |].
  - now exists false, p.
  - now exists true, p.
Qed.

Lemma Z2SF_shape (z : Z) :
  safe z -> z <> 0 ->
  exists s m e, Z2SF z = S754_finite s m e
    /\ bounded prec emax m e = true
    /\ cond_Zopp s (Z.pos m * 2 ^ (e - emin)) = z * 2 ^ (0 - emin).
Proof.
  intros Hz Nz.
  pose proof (Z2SF_valid z Hz) as V. pose proof (Z2SF_rank z Hz) as R.
  destruct (cond_Zopp_sign z Nz) as (s & p & Hs & Hp).
  unfold safe in Hz. rewrite Hp in Hz.
  destruct (Z2SF_canon z s p Hs Hz) as (q & j & _ & _ & E).
  rewrite E in V, R |- *. unfold SFcanon in V, R |- *. cbn [valid_binary SFrank] in V, R.
  do 3 eexists. split; [reflexivity | split; [exact V | exact R]].
Qed.

(** ** Addition, multiplication by one, remainder *)

(** Adding two finite numbers whose sum is representable is exact. *)
Lemma SFadd_finite_exact sx mx ex sy my ey s q j :
  bounded prec emax mx ex = true -> bounded prec emax my ey = true ->
  representable q j ->
  cond_Zopp sx (Z.pos mx * 2 ^ (ex - emin)) + cond_Zopp sy (Z.pos my * 2 ^ (ey - emin))
  = cond_Zopp s (Z.pos q * 2 ^ (j - emin)) ->
  SFadd prec emax (S754_finite sx mx ex) (S754_finite sy my ey) = SFcanon s q j.
Proof.
  intros Bx By R Hsum.
  apply bounded_inv in Bx, By. destruct Bx as (Hex & _), By as (Hey & _).
  cbn [SFadd]. set (ez := Z.min ex ey).
  destruct (shl_align_spec mx ex ez ltac:(lia)) as [Hx _].
  destruct (shl_align_spec my ey ez ltac:(lia)) as [Hy _].
  fold ez in Hx, Hy.
  set (M := cond_Zopp sx (Z.pos (fst (shl_align mx ex ez)))
            + cond_Zopp sy (Z.pos (fst (shl_align my ey ez)))).
  assert (HM : M * 2 ^ (ez - emin) = cond_Zopp s (Z.pos q * 2 ^ (j - emin))).
  { rewrite <- Hsum. unfold M. rewrite Hx, Hy.
    replace (ex - emin) with ((ex - ez) + (ez - emin)) by lia.
    replace (ey - emin) with ((ey - ez) + (ez - emin)) by lia.
    rewrite !Z.pow_add_r by lia.
    destruct sx, sy; cbn [cond_Zopp]; ring. }
  assert (HP : 0 < 2 ^ (ez - emin)) by (apply Z.pow_pos_nonneg; lia).
  assert (HQ : 0 < Z.pos q * 2 ^ (j - emin)).
  { destruct R as (_ & Hj & _). apply Z.mul_pos_pos; [lia | apply Z.pow_pos_nonneg; lia]. }
  assert (Hez : emin <= ez) by lia.
  clearbody M. destruct M as [| m | m], s; cbn [cond_Zopp] in HM; try nia.
  - cbn [binary_normalize]. apply binary_round_canon; assumption.
  - cbn [binary_normalize]. apply binary_round_canon; try assumption.
    change (Z.neg m) with (- Z.pos m) in HM. lia.
Qed.

Lemma SFadd_finite_zero sx mx ex sy my ey :
  bounded prec emax mx ex = true -> bounded prec emax my ey = true ->
  cond_Zopp sx (Z.pos mx * 2 ^ (ex - emin)) + cond_Zopp sy (Z.pos my * 2 ^ (ey - emin)) = 0 ->
  SFadd prec emax (S754_finite sx mx ex) (S754_finite sy my ey) = S754_zero false.
Proof.
  intros Bx By Hsum.
  apply bounded_inv in Bx, By. destruct Bx as (Hex & _), By as (Hey & _).
  cbn [SFadd]. set (ez := Z.min ex ey).
  destruct (shl_align_spec mx ex ez ltac:(lia)) as [Hx _].
  destruct (shl_align_spec my ey ez ltac:(lia)) as [Hy _].
  fold ez in Hx, Hy.
  set (M := cond_Zopp sx (Z.pos (fst (shl_align mx ex ez)))
            + cond_Zopp sy (Z.pos (fst (shl_align my ey ez)))).
  assert (HM : M * 2 ^ (ez - emin) = 0).
  { rewrite <- Hsum. unfold M. rewrite Hx, Hy.
    replace (ex - emin) with ((ex - ez) + (ez - emin)) by lia.
    replace (ey - emin) with ((ey - ez) + (ez - emin)) by lia.
    rewrite !Z.pow_add_r by lia.
    destruct sx, sy; cbn [cond_Zopp]; ring. }
  assert (HP : 0 < 2 ^ (ez - emin)) by (apply Z.pow_pos_nonneg; lia).
  assert (M = 0) by nia. clearbody M. subst M. reflexivity.
Qed.

(** On the integers of magnitude at most 2^53, addition is exact. *)
Lemma SFadd_Z2SF (a b : Z) :
  safe a -> safe b -> safe (a + b) ->
  SFadd prec emax (Z2SF a) (Z2SF b) = Z2SF (a + b).
Proof.
  intros Ha Hb Hab.
  destruct (Z.eq_dec a 0) as [-> | Na].
  { rewrite Z.add_0_l. destruct (Z.eq_dec b 0) as [-> | Nb]; [reflexivity|].
    destruct (Z2SF_shape b Hb Nb) as (s & m & e & -> & _). reflexivity. }
  destruct (Z2SF_shape a Ha Na) as (sa & ma & ea & Ea & Va & Ra).
  destruct (Z.eq_dec b 0) as [-> | Nb].
  { rewrite Z.add_0_r, Ea. reflexivity. }
  destruct (Z2SF_shape b Hb Nb) as (sb & mb & eb & Eb & Vb & Rb).
  rewrite Ea, Eb.
  destruct (Z.eq_dec (a + b) 0) as [Z0 | NZ].
  - rewrite Z0. apply SFadd_finite_zero; try assumption. rewrite Ra, Rb. nia.
  - destruct (cond_Zopp_sign (a + b) NZ) as (s & p & Hs & Hp).
    unfold safe in Hab. rewrite Hp in Hab.
    destruct (Z2SF_canon (a + b) s p Hs Hab) as (q & j & R & Hv & ->).
    apply SFadd_finite_exact; try assumption.
    rewrite Ra, Rb, <- Hv, <- Z.mul_add_distr_r, Hs. now destruct s.
Qed.

Lemma SFmul_1_l (y : spec_float) :
  valid_binary y = true -> SFmul prec emax (Prim2SF n1) y = y.
Proof.
  intros V. change (Prim2SF n1) with (S754_finite false 4503599627370496 (-52)).
  destruct y as [s | s | | s m e]; try reflexivity.
  cbn [SFmul xorb valid_binary] in *.
  destruct (bounded_canonical m e V) as [Hc Hmax].
  assert (Hm : Z.pos (4503599627370496 * m) = Z.pos m * 2 ^ 52).
  { rewrite Pos2Z.inj_mul. change (2 ^ 52) with (Z.pos 4503599627370496). ring. }
  replace e with ((-52 + e) + 52) at 2 by lia.
  apply binary_round_aux_exact; [lia | exact Hm | | lia].
  rewrite (digits2_pos_shift m _ 52 ltac:(lia) Hm).
  replace (Z.pos (digits2_pos m) + 52 + (-52 + e)) with (Z.pos (digits2_pos m) + e) by lia.
  lia.
Qed.

Lemma Zrem_le (a b : Z) : 0 <= a -> 0 < b -> Z.rem a b <= a.
Proof.
  intros Ha Hb. pose proof (Z.rem_bound_pos a b Ha Hb).
  pose proof (Z.quot_rem' a b). pose proof (Z.quot_pos a b Ha Hb). nia.
Qed.

Lemma Zrem_cond_Zopp (sn sd : bool) (a b c : Z) :
  0 < b -> 0 < c ->
  Z.rem (cond_Zopp sn (a * c)) (cond_Zopp sd (b * c)) = cond_Zopp sn (Z.rem a b * c).
Proof.
  intros Hb Hc.
  assert (b * c <> 0) by nia.
  destruct sn, sd; cbn [cond_Zopp];
    rewrite ?Z.rem_opp_r, ?Z.rem_opp_l by lia;
    rewrite Z.mul_rem_distr_r by lia; reflexivity.
Qed.

(** The remainder of two finite numbers is computed exactly. *)
Lemma SFrem_finite (x y : spec_float) :
  valid_binary x = true -> valid_binary y = true ->
  SFis_finite x = true -> SFis_finite y = true -> SFrank y <> 0 ->
  valid_binary (SFrem x y) = true /\ SFis_finite (SFrem x y) = true
  /\ SFrank (SFrem x y) = Z.rem (SFrank x) (SFrank y).
Proof.
  intros Vx Vy Fx Fy Ny.
  destruct y as [sd | sd | | sd md ed]; try discriminate; [now cbn in Ny|].
  destruct x as [sn | sn | | sn mn en]; try discriminate.
  { cbn [SFrem SFrank]. rewrite Z.rem_0_l by exact Ny. auto. }
  cbn [valid_binary] in Vx, Vy. cbn [SFrank SFrem].
  pose proof (bounded_mantissa_lt _ _ Vx) as Hmn.
  pose proof (bounded_mantissa_lt _ _ Vy) as Hmd.
  apply bounded_inv in Vx, Vy. destruct Vx as (Hen & _), Vy as (Hed & _).
  set (ez := Z.min en ed).
  destruct (shl_align_spec mn en ez ltac:(lia)) as [Hn _].
  destruct (shl_align_spec md ed ez ltac:(lia)) as [Hd _].
  fold ez in Hn, Hd.
  set (Mn := Z.pos (fst (shl_align mn en ez))) in *.
  set (Md := Z.pos (fst (shl_align md ed ez))) in *.
  assert (HP : 0 < 2 ^ (ez - emin)) by (apply Z.pow_pos_nonneg; lia).
  assert (Hrank : Z.rem (cond_Zopp sn (Z.pos mn * 2 ^ (en - emin)))
                        (cond_Zopp sd (Z.pos md * 2 ^ (ed - emin)))
                  = cond_Zopp sn (Z.rem Mn Md * 2 ^ (ez - emin))).
  { replace (en - emin) with ((en - ez) + (ez - emin)) by lia.
    replace (ed - emin) with ((ed - ez) + (ez - emin)) by lia.
    rewrite !Z.pow_add_r, !Z.mul_assoc, <- Hn, <- Hd by lia.
    apply Zrem_cond_Zopp; [reflexivity | exact HP]. }
  rewrite Hrank.
  pose proof (Z.rem_bound_pos Mn Md ltac:(discriminate) ltac:(reflexivity)) as [Hr0 Hr1].
  pose proof (Zrem_le Mn Md ltac:(discriminate) ltac:(reflexivity)) as Hr2.
  assert (Hsmall : Z.rem Mn Md < 2 ^ prec).
  { destruct (Z.min_spec en ed) as [[_ E] | [_ E]]; fold ez in E.
    - rewrite E, Z.sub_diag, Z.pow_0_r, Z.mul_1_r in Hn. lia.
    - rewrite E, Z.sub_diag, Z.pow_0_r, Z.mul_1_r in Hd. lia. }
  destruct (Z.rem Mn Md) as [| r | r]; [| | lia].
  - destruct sn; cbn; auto.
  - assert (R : representable r ez) by (apply representable_small; lia).
    assert (E : binary_normalize prec emax (cond_Zopp sn (Z.pos r)) ez sn = SFcanon sn r ez).
    { destruct sn; cbn [cond_Zopp Z.opp binary_normalize];
        apply binary_round_canon; (lia || assumption || reflexivity). }
    rewrite E. split; [now apply SFcanon_valid|]. split; [reflexivity|].
    now apply SFcanon_rank.
Qed.

End Binary64.

Import Binary64.

(** * Numbers

    The same facts on numbers, through the specification of the primitive
    operations. *)

Lemma compare_rank (x y : number) :
  isNaN x = false -> isNaN y = false ->
  SFcompare (Prim2SF x) (Prim2SF y) = Some (rank x ?= rank y).
Proof. intros. apply SFcompare_rank; auto using Prim2SF_valid. Qed.

Lemma leb_rank (x y : number) :
  isNaN x = false -> isNaN y = false ->
  (x <=? y)%float = (rank x <=? rank y).
Proof.
  intros Nx Ny. rewrite leb_spec. unfold SFleb. rewrite compare_rank by assumption.
  unfold Z.leb. now destruct (rank x ?= rank y).
Qed.

Lemma ltb_rank (x y : number) :
  isNaN x = false -> isNaN y = false ->
  (x <? y)%float = (rank x <? rank y).
Proof.
  intros Nx Ny. rewrite ltb_spec. unfold SFltb. rewrite compare_rank by assumption.
  unfold Z.ltb. now destruct (rank x ?= rank y).
Qed.

Lemma eqb_rank (x y : number) :
  isNaN x = false -> isNaN y = false ->
  (x =? y)%float = (rank x =? rank y).
Proof.
  intros Nx Ny. rewrite eqb_spec. unfold SFeqb. rewrite compare_rank by assumption.
  destruct (Z.compare_spec (rank x) (rank y)) as [E | L | G]; symmetry.
  - now apply Z.eqb_eq.
  - apply Z.eqb_neq. lia.
  - apply Z.eqb_neq. lia.
Qed.

Lemma leb_true_not_NaN (x y : number) :
  (x <=? y)%float = true -> isNaN x = false /\ isNaN y = false.
Proof.
  rewrite leb_spec. unfold SFleb, isNaN.
  destruct (SFis_nan (Prim2SF x)) eqn:Nx.
  { now rewrite SFcompare_nan_l. }
  destruct (SFis_nan (Prim2SF y)) eqn:Ny.
  { now rewrite SFcompare_nan_r. }
  auto.
Qed.

Lemma ltb_true_not_NaN (x y : number) :
  (x <? y)%float = true -> isNaN x = false /\ isNaN y = false.
Proof.
  rewrite ltb_spec. unfold SFltb, isNaN.
  destruct (SFis_nan (Prim2SF x)) eqn:Nx.
  { now rewrite SFcompare_nan_l. }
  destruct (SFis_nan (Prim2SF y)) eqn:Ny.
  { now rewrite SFcompare_nan_r. }
  auto.
Qed.

Lemma isFinite_not_NaN (x : number) : isFinite x = true -> isNaN x = false.
Proof. unfold isFinite, isNaN. now destruct (Prim2SF x). Qed.

Lemma leb_true_rank (x y : number) :
  (x <= y)%js = true -> isNaN x = false /\ isNaN y = false /\ rank x <= rank y.
Proof.
  intros H. destruct (leb_true_not_NaN _ _ H) as [Nx Ny].
  rewrite leb_rank in H by assumption. apply Z.leb_le in H. auto.
Qed.

Lemma gt_true_rank (x y : number) :
  (x > y)%js = true -> isNaN x = false /\ isNaN y = false /\ rank y < rank x.
Proof.
  unfold js_gt. intros H. destruct (ltb_true_not_NaN _ _ H) as [Ny Nx].
  rewrite ltb_rank in H by assumption. apply Z.ltb_lt in H. auto.
Qed.

Lemma rank_leb_true (x y : number) :
  isNaN x = false -> isNaN y = false -> rank x <= rank y -> (x <= y)%js = true.
Proof. intros Nx Ny H. rewrite leb_rank by assumption. now apply Z.leb_le. Qed.

Lemma gt_not_le (a b : number) : (a > b)%js = true -> (a <= b)%js = false.
Proof.
  unfold js_gt. intros H.
  destruct (ltb_true_not_NaN _ _ H) as [Nb Na].
  rewrite ltb_rank in H by assumption. rewrite leb_rank by assumption.
  apply Z.ltb_lt in H. apply Z.leb_gt. exact H.
Qed.

Lemma rank_inj (x y : number) :
  isNaN x = false -> isNaN y = false -> rank x = rank y -> rank x <> 0 -> x = y.
Proof.
  intros Nx Ny E Nz. apply Prim2SF_inj.
  apply SFrank_inj; auto using Prim2SF_valid.
Qed.

Lemma leb_antisym (x y : number) :
  (x <= y)%js = true -> (y <= x)%js = true -> rank y <> 0 -> x = y.
Proof.
  intros H1 H2 Nz.
  destruct (leb_true_rank _ _ H1) as (Nx & Ny & L1).
  destruct (leb_true_rank _ _ H2) as (_ & _ & L2).
  apply rank_inj; (assumption || lia).
Qed.

(** ** Integers as numbers *)

Lemma Prim2SF_Z2F (z : Z) : safe z -> Prim2SF (Z2F z) = Z2SF z.
Proof. intros Hz. apply Prim2SF_SF2Prim, Z2SF_valid, Hz. Qed.

Lemma rank_Z2F (z : Z) : safe z -> rank (Z2F z) = z * 2 ^ 1074.
Proof. intros Hz. unfold rank. rewrite Prim2SF_Z2F by exact Hz. now apply Z2SF_rank. Qed.

Lemma isFinite_Z2F (z : Z) : safe z -> isFinite (Z2F z) = true.
Proof. intros Hz. unfold isFinite. rewrite Prim2SF_Z2F by exact Hz. now apply Z2SF_finite. Qed.

Lemma Z2F_0 : Z2F 0 = n0.
Proof. reflexivity. Qed.

Lemma Z2F_1 : Z2F 1 = n1.
Proof. reflexivity. Qed.

Lemma Z2F_add (a b : Z) :
  safe a -> safe b -> safe (a + b) -> (Z2F a + Z2F b)%float = Z2F (a + b).
Proof.
  intros Ha Hb Hab. apply Prim2SF_inj.
  rewrite add_spec, !Prim2SF_Z2F by assumption. now apply SFadd_Z2SF.
Qed.

Lemma Z2F_succ (k : Z) : safe k -> safe (k + 1) -> (Z2F k + n1)%js = Z2F (k + 1).
Proof.
  intros Hk Hk1. rewrite <- Z2F_1. apply Z2F_add; try assumption.
  unfold safe. cbn. lia.
Qed.

Lemma Z2F_leb (a b : Z) : safe a -> safe b -> (Z2F a <=? Z2F b)%float = (a <=? b).
Proof.
  intros Ha Hb.
  rewrite leb_rank, !rank_Z2F by auto using isFinite_not_NaN, isFinite_Z2F.
  destruct (Z.leb_spec a b), (Z.leb_spec (a * 2 ^ 1074) (b * 2 ^ 1074)); try reflexivity.
  all: assert (0 < 2 ^ 1074) by reflexivity; nia.
Qed.

Lemma Z2F_eqb (a b : Z) : safe a -> safe b -> (Z2F a =? Z2F b)%float = (a =? b).
Proof.
  intros Ha Hb.
  rewrite eqb_rank, !rank_Z2F by auto using isFinite_not_NaN, isFinite_Z2F.
  destruct (Z.eqb_spec a b), (Z.eqb_spec (a * 2 ^ 1074) (b * 2 ^ 1074)); try reflexivity.
  all: assert (0 < 2 ^ 1074) by reflexivity; nia.
Qed.

Lemma safe_between (a k b : Z) : safe a -> safe b -> a <= k <= b -> safe k.
Proof. unfold safe. lia. Qed.

Lemma isInteger_spec (x : number) :
  isInteger x = true -> isFinite x = true /\ rank x = to_Z x * 2 ^ 1074.
Proof.
  unfold isInteger, to_Z. rewrite andb_true_iff, Z.eqb_eq. intros [F M].
  split; [exact F|]. apply Z.div_exact in M; [lia | discriminate].
Qed.

Lemma isInteger_Z2F (z : Z) : safe z -> isInteger (Z2F z) = true /\ to_Z (Z2F z) = z.
Proof.
  intros Hz. unfold isInteger, to_Z. rewrite isFinite_Z2F, rank_Z2F by exact Hz.
  rewrite Z.mod_mul, Z.div_mul by discriminate. auto.
Qed.

Lemma nonneg_to_Z (x : number) :
  isInteger x = true -> (n0 <= x)%js = true -> 0 <= to_Z x.
Proof.
  intros Ix Hx. destruct (isInteger_spec x Ix) as [_ R].
  destruct (leb_true_rank _ _ Hx) as (_ & _ & L). change (rank n0) with 0 in L.
  assert (0 < 2 ^ 1074) by reflexivity. nia.
Qed.

(** ** Multiplication by one and remainder *)

Lemma number_mul_1_l (y : number) : (n1 * y)%js = y.
Proof.
  apply Prim2SF_inj. rewrite mul_spec. apply SFmul_1_l, Prim2SF_valid.
Qed.

Lemma js_rem_finite (x y : number) :
  isFinite x = true -> isFinite y = true -> rank y <> 0 ->
  isFinite (js_rem x y) = true /\ rank (js_rem x y) = Z.rem (rank x) (rank y).
Proof.
  intros Fx Fy Ny.
  destruct (SFrem_finite (Prim2SF x) (Prim2SF y)) as (V & F & R);
    auto using Prim2SF_valid.
  unfold isFinite, rank, js_rem. rewrite Prim2SF_SF2Prim by exact V. auto.
Qed.

Lemma eqb_0_rank (b : number) : isFinite b = true -> (b == n0)%js = (rank b =? 0).
Proof. intros Fb. now rewrite eqb_rank by auto using isFinite_not_NaN. Qed.

(** The recursive call is on a second argument of smaller magnitude. *)
Lemma js_rem_decreases (a b : number) :
  isFinite a = true -> isFinite b = true -> (b == n0)%js = false ->
  isFinite (a mod b)%js = true /\ Z.abs (rank (a mod b)%js) < Z.abs (rank b).
Proof.
  intros Fa Fb Nb. rewrite eqb_0_rank in Nb by exact Fb. apply Z.eqb_neq in Nb.
  destruct (js_rem_finite a b Fa Fb Nb) as [F R]. split; [exact F|].
  rewrite R. apply Z.rem_bound_abs. exact Nb.
Qed.

Lemma Z2F_rem_2_eq_0 (k : Z) :
  safe k -> ((Z2F k mod n2) === n0)%js = Z.even k.
Proof.
  intros Hk.
  assert (S2 : safe 2) by solve_safe.
  assert (F2 : isFinite n2 = true) by reflexivity.
  assert (R2 : rank n2 = 2 * 2 ^ 1074) by reflexivity.
  assert (HP : 0 < 2 ^ 1074) by reflexivity.
  destruct (js_rem_finite (Z2F k) n2) as [F R];
    [now apply isFinite_Z2F | exact F2 | rewrite R2; lia |].
  rewrite eqb_rank by auto using isFinite_not_NaN.
  rewrite R, rank_Z2F, R2 by assumption.
  rewrite Z.mul_rem_distr_r by lia.
  change (rank n0) with 0.
  rewrite Zeven_mod.
  destruct (Z.eqb_spec (k mod 2) 0) as [E | N].
  - apply Z.eqb_eq. apply Z.rem_mod_eq_0 in E; [|lia]. rewrite E. reflexivity.
  - apply Z.eqb_neq. intros E. apply N. apply Z.rem_mod_eq_0; nia.
Qed.

(** * The summation engine *)

Lemma diverges_not_returns {A : Type} (run : nat -> option A) (v : A) :
  diverges run -> ~ returns run v.
Proof. intros D [fuel H]. rewrite D in H. discriminate. Qed.

Section Engine.
Variables (f : number -> number) (filter : number -> bool) (next : number -> number).
Variable b : number.

Lemma sumnation_loop_S (fuel : nat) (i answer : number) :
  sumnation_loop (S fuel) f filter next b i answer
  = if (i <= b)%js
    then sumnation_loop fuel f filter next b (next i)
           (if filter i then (answer + f i)%js else answer)
    else Some answer.
Proof. reflexivity. Qed.

(** More fuel never changes a result. *)
Lemma sumnation_loop_mono (fuel extra : nat) (i answer v : number) :
  sumnation_loop fuel f filter next b i answer = Some v ->
  sumnation_loop (fuel + extra) f filter next b i answer = Some v.
Proof.
  revert i answer. induction fuel as [| fuel IH]; intros i answer; cbn.
  - discriminate.
  - destruct (i <= b)%js; [apply IH | trivial].
Qed.

Lemma sumnation_loop_deterministic (fuel1 fuel2 : nat) (i answer v1 v2 : number) :
  sumnation_loop fuel1 f filter next b i answer = Some v1 ->
  sumnation_loop fuel2 f filter next b i answer = Some v2 ->
  v1 = v2.
Proof.
  intros H1 H2.
  apply (sumnation_loop_mono _ fuel2) in H1.
  apply (sumnation_loop_mono _ fuel1) in H2.
  rewrite Nat.add_comm in H2. congruence.
Qed.

(** The traced loop computes what the loop computes. *)
Lemma sumnation_loop_traced_fst (fuel : nat) (i answer : number) (calls : list call) :
  option_map fst (sumnation_loop_traced fuel f filter next b i answer calls)
  = sumnation_loop fuel f filter next b i answer.
Proof.
  revert i answer calls. induction fuel as [| fuel IH]; intros i answer calls; cbn.
  - reflexivity.
  - destruct (i <= b)%js; [|reflexivity].
    destruct (filter i); apply IH.
Qed.

End Engine.

(** A call returns at most one value. *)
Lemma sumnation_returns_unique
  (f : number -> number) (filter : number -> bool) (next : number -> number)
  (a b v1 v2 : number) :
  returns (fun fuel => sumnation fuel f filter a next b) v1 ->
  returns (fun fuel => sumnation fuel f filter a next b) v2 ->
  v1 = v2.
Proof.
  intros [fuel1 H1] [fuel2 H2].
  exact (sumnation_loop_deterministic f filter next b _ _ _ _ _ _ H1 H2).
Qed.

(** C5: when [a > b] the engine returns 0 at its first test of the loop
    condition, whatever [f], [filter] and [next] are, and it has called
    none of them: the trace of calls is empty. *)
Theorem sumnation_empty_interval
  (f : number -> number) (filter : number -> bool) (next : number -> number)
  (a b : number) (fuel : nat) :
  (a > b)%js = true ->
  sumnation (S fuel) f filter a next b = Some n0
  /\ sumnation_traced (S fuel) f filter a next b = Some (n0, []).
Proof.
  intros H. apply gt_not_le in H.
  unfold sumnation, sumnation_traced. cbn. rewrite H. split; reflexivity.
Qed.

Lemma sumnation_empty_interval_witness :
  sumnation 1 (fun x => x) (fun _ => true) 2%float (fun x => (x + n1)%js) 1%float = Some n0
  /\ sumnation_traced 1 (fun x => x) (fun _ => true) 2%float (fun x => (x + n1)%js) 1%float
     = Some (n0, []).
Proof.
  apply (sumnation_empty_interval (fun x => x) (fun _ => true) (fun x => (x + n1)%js)
           2%float 1%float 0).
  reflexivity.
Defined.

(** ** The wrappers *)

(** C7: each of the four wrappers is the engine applied to its fixed
    parameters (identity transform, always-true filter, successor [x + 1])
    and nothing else, for every input and every amount of fuel. *)
Theorem wrappers_are_sumnation :
  (forall fuel a b,
      add fuel a b
      = sumnation fuel (fun x => x) (fun _ => true) a (fun x => (x + n1)%js) b)
  /\ (forall fuel filter a b,
      filtered_add fuel filter a b
      = sumnation fuel (fun x => x) filter a (fun x => (x + n1)%js) b)
  /\ (forall fuel f a b,
      addition fuel f a b
      = sumnation fuel f (fun _ => true) a (fun x => (x + n1)%js) b)
  /\ (forall fuel f filter a b,
      filtered_addition fuel f filter a b
      = sumnation fuel f filter a (fun x => (x + n1)%js) b).
Proof. repeat split. Qed.

(** C8: [filtered_add] with the always-true filter returns what [add]
    returns on the same bounds: with any amount of fuel the two calls give
    the same result, so they terminate together and on the same value. *)
Theorem filtered_add_true_is_add :
  forall fuel a b, filtered_add fuel (fun _ => true) a b = add fuel a b.
Proof. intros fuel a b. unfold filtered_add, add. reflexivity. Qed.

(** ** The successor [x + 1] on integer cursors *)

(** With the successor [x + 1], integer bounds [a <= b + 1] and cursors that
    stay within the integers that are numbers, the loop visits exactly
    [a, a+1, ..., b], in this order, and stops. *)
Lemma sumnation_loop_range (f : number -> number) (filter : number -> bool)
  (b : Z) (len : nat) (a : Z) (acc : number) :
  safe a -> safe b -> safe (b + 1) -> a + Z.of_nat len = b + 1 ->
  sumnation_loop (S len) f filter (fun x => (x + n1)%js) (Z2F b) (Z2F a) acc
  = Some (accumulate f filter (Zrange a len) acc).
Proof.
  intros Ha Hb Hb1. revert a acc Ha.
  induction len as [| len IH]; intros a acc Ha Hlen.
  - cbn. rewrite Z2F_leb by assumption.
    replace (a <=? b) with false by (symmetry; apply Z.leb_gt; lia). reflexivity.
  - assert (Ha1 : safe (a + 1)) by (apply (safe_between a _ (b + 1)); (assumption || lia)).
    rewrite sumnation_loop_S, Z2F_leb by assumption.
    replace (a <=? b) with true by (symmetry; apply Z.leb_le; lia).
    rewrite (Z2F_succ a Ha Ha1), IH by (assumption || lia). reflexivity.
Qed.

Lemma sumnation_range (f : number -> number) (filter : number -> bool) (a b : Z) :
  safe a -> safe b -> safe (b + 1) -> a <= b + 1 ->
  sumnation (S (Z.to_nat (b + 1 - a))) f filter (Z2F a) (fun x => (x + n1)%js) (Z2F b)
  = Some (accumulate f filter (Zrange a (Z.to_nat (b + 1 - a))) n0).
Proof.
  intros Ha Hb Hb1 Hab. unfold sumnation. apply sumnation_loop_range; try assumption.
  rewrite Z2Nat.id; lia.
Qed.

(** Once the cursor is an integer below [2^53] and the bound is at least
    [2^53], the successor [x + 1] never takes the cursor past the bound:
    [2^53 + 1] is not a number and rounds to [2^53]. *)
Lemma successor_stalls (f : number -> number) (filter : number -> bool)
  (b : number) (fuel : nat) (k : Z) (acc : number) :
  (Z2F (2 ^ 53) <= b)%js = true -> safe k ->
  sumnation_loop fuel f filter (fun x => (x + n1)%js) b (Z2F k) acc = None.
Proof.
  intros Hb. revert k acc. induction fuel as [| fuel IH]; intros k acc Hk; [reflexivity|].
  rewrite sumnation_loop_S.
  assert (Hle : (Z2F k <= b)%js = true).
  { destruct (leb_true_not_NaN _ _ Hb) as [_ Nb].
    assert (S53 : safe (2 ^ 53)) by solve_safe.
    rewrite leb_rank in Hb |- * by auto using isFinite_not_NaN, isFinite_Z2F.
    rewrite rank_Z2F in Hb |- * by assumption.
    apply Z.leb_le in Hb. apply Z.leb_le. unfold safe in Hk.
    assert (0 < 2 ^ 1074) by reflexivity. nia. }
  rewrite Hle.
  destruct (Z.eq_dec k (2 ^ 53)) as [-> | Nk].
  - replace (Z2F (2 ^ 53) + n1)%js with (Z2F (2 ^ 53)) by reflexivity.
    apply IH. solve_safe.
  - assert (Hk1 : safe (k + 1)) by solve_safe.
    rewrite (Z2F_succ k Hk Hk1). apply IH. exact Hk1.
Qed.

(** ** The arithmetic series *)

Lemma arithmetic_series_empty (a : Z) : arithmetic_series a (a - 1) = 0.
Proof. unfold arithmetic_series. replace (a - 1 - a + 1) with 0 by lia. reflexivity. Qed.

Lemma arithmetic_series_step (a k : Z) :
  arithmetic_series a (k - 1) + k = arithmetic_series a k.
Proof.
  unfold arithmetic_series.
  replace ((k - a + 1) * (a + k)) with ((k - 1 - a + 1) * (a + (k - 1)) + k * 2) by ring.
  rewrite Z.div_add by lia. reflexivity.
Qed.

Lemma accumulate_identity (a : Z) (len : nat) (k : Z) :
  safe k -> safe (k + Z.of_nat len) ->
  (forall j, k - 1 <= j < k + Z.of_nat len -> safe (arithmetic_series a j)) ->
  accumulate (fun x => x) (fun _ => true) (Zrange k len) (Z2F (arithmetic_series a (k - 1)))
  = Z2F (arithmetic_series a (k + Z.of_nat len - 1)).
Proof.
  revert k. induction len as [| len IH]; intros k Hk Hend Hsums.
  - cbn. f_equal. f_equal. lia.
  - cbn [Zrange accumulate fold_left].
    rewrite Z2F_add, arithmetic_series_step.
    + fold (accumulate (fun x => x) (fun _ => true) (Zrange (k + 1) len)
              (Z2F (arithmetic_series a k))).
      replace k with (k + 1 - 1) at 2 by lia.
      rewrite IH.
      * f_equal. f_equal. lia.
      * apply (safe_between k _ (k + Z.of_nat (S len))); (assumption || lia).
      * replace (k + 1 + Z.of_nat len) with (k + Z.of_nat (S len)) by lia. exact Hend.
      * intros j Hj. apply Hsums. lia.
    + apply Hsums. lia.
    + exact Hk.
    + rewrite arithmetic_series_step. apply Hsums. lia.
Qed.

(** C3, as the code has it: for integers [a <= b] with [-2^53 <= a] and
    [b < 2^53], all of whose partial sums [a + (a+1) + ... + k] are of
    magnitude at most [2^53], the engine with the identity transform, the
    always-true filter and the successor [x + 1] returns the closed form
    [(b - a + 1) * (a + b) / 2]. *)
Theorem sumnation_arithmetic_series (a b : Z) :
  a <= b -> - 2 ^ 53 <= a -> b < 2 ^ 53 ->
  (forall k, a <= k <= b -> Z.abs ((k - a + 1) * (a + k) / 2) <= 2 ^ 53) ->
  returns (fun fuel => sumnation fuel (fun x => x) (fun _ => true)
                         (Z2F a) (fun x => (x + n1)%js) (Z2F b))
          (Z2F ((b - a + 1) * (a + b) / 2)).
Proof.
  intros Hab Ha Hb Hsums.
  assert (Sa : safe a) by solve_safe.
  assert (Sb : safe b) by solve_safe.
  assert (Sb1 : safe (b + 1)) by solve_safe.
  exists (S (Z.to_nat (b + 1 - a))).
  rewrite sumnation_range by (assumption || lia). f_equal.
  rewrite <- Z2F_0, <- (arithmetic_series_empty a).
  rewrite accumulate_identity.
  - fold (arithmetic_series a b). f_equal. f_equal. rewrite Z2Nat.id; lia.
  - exact Sa.
  - rewrite Z2Nat.id by lia. replace (a + (b + 1 - a)) with (b + 1) by lia. exact Sb1.
  - intros j Hj. rewrite Z2Nat.id in Hj by lia.
    destruct (Z.eq_dec j (a - 1)) as [-> | Nj].
    + rewrite arithmetic_series_empty. solve_safe.
    + apply Hsums. lia.
Qed.

Lemma sumnation_arithmetic_series_witness :
  returns (fun fuel => sumnation fuel (fun x => x) (fun _ => true)
                         (Z2F 1) (fun x => (x + n1)%js) (Z2F 100))
          (Z2F ((100 - 1 + 1) * (1 + 100) / 2)).
Proof.
  apply (sumnation_arithmetic_series 1 100); try lia.
  intros k Hk.
  assert (H : 0 <= (k - 1 + 1) * (1 + k) / 2 <= 100 * 101).
  { split; [apply Z.div_pos; nia | apply Z.div_le_upper_bound; nia]. }
  rewrite Z.abs_eq by lia.
  apply Z.le_trans with (100 * 101); [lia | discriminate].
Defined.

(** Beyond the integers on which the arithmetic of numbers is exact the
    closed form is not what the engine returns.  Between the integers
    [2^53 - 1 <= 2^53] the call never returns, because the cursor [2^53] is
    its own successor; between [2^52 <= 2^52 + 2] it returns
    [13510798882111490], one less than the closed form, which is not a
    number. *)
Lemma sumnation_diverges_at_2_53 :
  (9007199254740991 <= 9007199254740992)%Z
  /\ Z2F 9007199254740991 = 9007199254740991%float
  /\ Z2F 9007199254740992 = 9007199254740992%float
  /\ (9007199254740992 + n1)%js = 9007199254740992%float
  /\ diverges (fun fuel => sumnation fuel (fun x => x) (fun _ => true)
                 9007199254740991%float (fun x => (x + n1)%js)
                 9007199254740992%float)
  /\ sumnation 4 (fun x => x) (fun _ => true)
       (Z2F 4503599627370496) (fun x => (x + n1)%js) (Z2F 4503599627370498)
     = Some 13510798882111490%float
  /\ to_Z 13510798882111490%float = 13510798882111490
  /\ (4503599627370498 - 4503599627370496 + 1)
      * (4503599627370496 + 4503599627370498) / 2 = 13510798882111491.
Proof.
  split; [lia|]. do 3 (split; [reflexivity|]).
  split; [| repeat split; vm_compute; reflexivity].
  intros fuel. unfold sumnation.
  change 9007199254740991%float with (Z2F (2 ^ 53 - 1)).
  change 9007199254740992%float with (Z2F (2 ^ 53)).
  apply successor_stalls; [reflexivity | solve_safe].
Qed.

(** ** Termination *)

Section Termination.
Variables (f : number -> number) (filter : number -> bool) (next : number -> number).
Variables a b : number.

Hypothesis next_increases :
  forall x, (a <= x)%js = true -> (x <= b)%js = true -> (next x > x)%js = true.

Lemma sumnation_loop_terminates (m : nat) (i acc : number) :
  ((i <= b)%js = true -> (a <= i)%js = true) ->
  (Z.to_nat (rank b - rank i + 1) <= m)%nat ->
  exists v, sumnation_loop (S m) f filter next b i acc = Some v.
Proof.
  revert i acc. induction m as [| m IH]; intros i acc Hai Hm;
    rewrite sumnation_loop_S; destruct (i <= b)%js eqn:E; eauto.
  - destruct (leb_true_rank _ _ E) as (_ & _ & Hr). lia.
  - specialize (Hai eq_refl).
    destruct (leb_true_rank _ _ E) as (Ni & Nb & Hib).
    destruct (leb_true_rank _ _ Hai) as (Na & _ & Hia).
    destruct (gt_true_rank _ _ (next_increases i Hai E)) as (Nn & _ & Hn).
    apply IH; [|lia].
    intros _. apply rank_leb_true; (assumption || lia).
Qed.

End Termination.

Section Divergence.
Variables (f : number -> number) (filter : number -> bool) (next : number -> number).
Variable b : number.

Hypothesis next_never_increases :
  forall x, (x <= b)%js = true -> (next x <= x)%js = true.

Lemma sumnation_loop_diverges (fuel : nat) (i acc : number) :
  (i <= b)%js = true -> sumnation_loop fuel f filter next b i acc = None.
Proof.
  revert i acc. induction fuel as [| fuel IH]; intros i acc E; [reflexivity|].
  rewrite sumnation_loop_S, E. apply IH.
  destruct (leb_true_rank _ _ E) as (Ni & Nb & Hib).
  destruct (leb_true_rank _ _ (next_never_increases i E)) as (Nn & _ & Hn).
  apply rank_leb_true; (assumption || lia).
Qed.

End Divergence.

(** C4, as the code has it: if [next(x) > x] for every [x] between the
    bounds, the call terminates; and if [a <= b] and [next] never increases
    a cursor ([next(x) <= x] for every [x <= b]), the call does not
    terminate. *)
Theorem sumnation_termination
  (f : number -> number) (filter : number -> bool) (next : number -> number)
  (a b : number) :
  ((forall x, (a <= x)%js = true -> (x <= b)%js = true -> (next x > x)%js = true) ->
   terminates (fun fuel => sumnation fuel f filter a next b))
  /\ ((a <= b)%js = true ->
      (forall x, (x <= b)%js = true -> (next x <= x)%js = true) ->
      diverges (fun fuel => sumnation fuel f filter a next b)).
Proof.
  split.
  - intros Hinc. exists (S (Z.to_nat (rank b - rank a + 1))).
    apply (sumnation_loop_terminates f filter next a b Hinc); [|lia].
    intros E. destruct (leb_true_rank _ _ E) as (Na & _ & _).
    apply rank_leb_true; (assumption || lia).
  - intros Hab Hdec fuel. now apply sumnation_loop_diverges.
Qed.

Lemma sumnation_termination_witness :
  terminates (fun fuel => sumnation fuel (fun x => x) (fun _ => true)
                            1%float (fun x => (x + n1)%js) 1%float)
  /\ diverges (fun fuel => sumnation fuel (fun x => x) (fun _ => true)
                             1%float (fun x => x) 2%float).
Proof.
  split.
  - apply (sumnation_termination (fun x => x) (fun _ => true)
             (fun x => (x + n1)%js) 1%float 1%float).
    intros x H1 H2. rewrite (leb_antisym x 1%float H2 H1); [reflexivity | discriminate].
  - apply (sumnation_termination (fun x => x) (fun _ => true)
             (fun x => x) 1%float 2%float); [reflexivity|].
    intros x H. destruct (leb_true_rank _ _ H) as (Nx & _ & _).
    apply rank_leb_true; (assumption || lia).
Defined.

(** A successor that moves the cursor down at its first step and the call
    terminates all the same: from 0 the cursor goes to -1, then to 4, past
    the bound 3. *)
Lemma sumnation_terminates_without_increase :
  (detour n0 > n0)%js = false
  /\ detour n0 = (-1)%float
  /\ detour (-1)%float = 4%float
  /\ sumnation 3 (fun x => x) (fun _ => true) n0 detour 3%float = Some (-1)%float.
Proof. repeat split; reflexivity. Qed.

(** * Simpson's rule *)

(** On an integer cursor the local function [simpson_coefficient] weighs
    its sample by the coefficient of the specification. *)
Lemma simpson_coefficient_weight (f : number -> number) (a h : number) (k : Z) :
  safe k ->
  simpson_coefficient f a h (Z2F k)
  = (simpson_weight k * f (a + (Z2F k * h)))%js.
Proof.
  intros Hk. unfold simpson_coefficient, simpson_weight, simpson_y.
  rewrite <- Z2F_0 at 1. rewrite Z2F_eqb by (assumption || (solve_safe)).
  destruct (k =? 0); [now rewrite number_mul_1_l|].
  rewrite Z2F_rem_2_eq_0 by assumption. now destruct (Z.even k).
Qed.

Lemma Zrange_In (k a : Z) (len : nat) :
  In k (Zrange a len) -> a <= k < a + Z.of_nat len.
Proof.
  revert a. induction len as [| len IH]; intros a; cbn [Zrange In].
  - contradiction.
  - intros [<- | H]; [lia|]. apply IH in H. lia.
Qed.

Lemma fold_left_ext_In {A B : Type} (g1 g2 : A -> B -> A) (l : list B) (acc : A) :
  (forall x y, In y l -> g1 x y = g2 x y) ->
  fold_left g1 l acc = fold_left g2 l acc.
Proof.
  revert acc. induction l as [| y l IH]; intros acc H; cbn.
  - reflexivity.
  - rewrite H by now left. apply IH. intros x z Hz. apply H. now right.
Qed.

(** C2, as the code has it: for a positive integer [n < 2^53],
    [simpsons_rule(f, a, b, n)] returns [(h/3)] times the sum, for [k] from 0
    to [n], of [c(k) * f(a + k*h)], with [h = (b - a)/n] and [c(k)] equal
    to 1 at [k = 0], 2 at every even [k > 0] (the last one included) and 4
    at every odd [k]. *)
Theorem simpsons_rule_formula (f : number -> number) (a b : number) (n : Z) :
  0 < n < 2 ^ 53 ->
  returns (fun fuel => simpsons_rule fuel f a b (Z2F n)) (simpson_formula f a b n).
Proof.
  intros Hn.
  assert (S0 : safe 0) by solve_safe.
  assert (Sn : safe n) by solve_safe.
  assert (Sn1 : safe (n + 1)) by solve_safe.
  exists (S (Z.to_nat (n + 1 - 0))).
  unfold simpsons_rule, addition. rewrite <- Z2F_0 at 1.
  rewrite sumnation_range by (assumption || lia).
  cbn [option_map]. unfold simpson_formula, accumulate.
  replace (Z.to_nat (n + 1 - 0)) with (S (Z.to_nat n)) by lia.
  cbv zeta. apply f_equal. apply f_equal. apply fold_left_ext_In. intros x k Hk.
  apply Zrange_In in Hk. rewrite simpson_coefficient_weight; [reflexivity|].
  unfold safe. lia.
Qed.

Lemma simpsons_rule_formula_witness :
  returns (fun fuel => simpsons_rule fuel cube 0%float 1%float (Z2F 1000))
          (simpson_formula cube 0%float 1%float 1000).
Proof. apply (simpsons_rule_formula cube 0%float 1%float 1000). lia. Defined.

(** For [n = 2^53], a positive integer, the call never returns: the loop
    counter cannot get past [2^53]. *)
Lemma simpsons_rule_diverges_at_2_53 :
  (0 < 9007199254740992)%Z
  /\ Z2F 9007199254740992 = 9007199254740992%float
  /\ diverges (fun fuel => simpsons_rule fuel cube 0%float 1%float 9007199254740992%float).
Proof.
  split; [lia|]. split; [reflexivity|].
  intros fuel. unfold simpsons_rule, addition, sumnation.
  match goal with
  | |- option_map _ ?loop = None => replace loop with (@None number); [reflexivity|]
  end.
  symmetry. apply (successor_stalls _ _ (Z2F (2 ^ 53)) fuel 0 n0);
    [reflexivity | solve_safe].
Qed.

(** C1: on the cube, [0], [1] and [n = 1000] the code returns
    [0.25033333333333335], which is not within [1e-6] of [0.25].  The
    sample at [k = n] is weighed by 2; weighed by 1, as the composite
    Simpson rule has it, the same sum is within [1e-6] of [0.25]. *)
Theorem simpsons_rule_cube_1000 :
  simpsons_rule 1002 cube 0%float 1%float 1000%float = Some 0.25033333333333335%float
  /\ within 1e-6%float 0.25033333333333335%float 0.25%float = false
  /\ within 1e-6%float (textbook_simpson cube 0%float 1%float 1000) 0.25%float = true.
Proof. repeat split; vm_compute; reflexivity. Qed.

(** * The coprimality predicate *)

Lemma gcd_S (fuel : nat) (a b : number) :
  gcd (S fuel) a b = if (b == n0)%js then Some a else gcd fuel b (a mod b)%js.
Proof. reflexivity. Qed.

Lemma gcd_mono (fuel extra : nat) (a b g : number) :
  gcd fuel a b = Some g -> gcd (fuel + extra) a b = Some g.
Proof.
  revert a b. induction fuel as [| fuel IH]; intros a b; cbn.
  - discriminate.
  - destruct (b == n0)%js; [trivial | apply IH].
Qed.

Lemma gcd_deterministic (fuel1 fuel2 : nat) (a b g1 g2 : number) :
  gcd fuel1 a b = Some g1 -> gcd fuel2 a b = Some g2 -> g1 = g2.
Proof.
  intros H1 H2.
  apply (gcd_mono _ fuel2) in H1. apply (gcd_mono _ fuel1) in H2.
  rewrite Nat.add_comm in H2. congruence.
Qed.

(** [coprime(n)(i)] returns at most one truth value. *)
Lemma coprime_returns_unique (n i : number) (r1 r2 : bool) :
  returns (fun fuel => coprime fuel n i) r1 ->
  returns (fun fuel => coprime fuel n i) r2 ->
  r1 = r2.
Proof.
  unfold coprime. intros [fuel1 H1] [fuel2 H2].
  destruct (gcd fuel1 i n) as [g1 |] eqn:G1; [|discriminate].
  destruct (gcd fuel2 i n) as [g2 |] eqn:G2; [|discriminate].
  rewrite (gcd_deterministic _ _ _ _ _ _ G1 G2) in H1. cbn in H1, H2. congruence.
Qed.

(** On finite numbers [gcd] returns, and it returns the number that the
    Euclidean recursion on the exact values yields. *)
Lemma gcd_returns_euclid (a b : number) :
  isFinite a = true -> isFinite b = true ->
  exists fuel g, gcd fuel a b = Some g /\ isFinite g = true
                 /\ euclid (rank a) (rank b) (rank g).
Proof.
  remember (Z.abs_nat (rank b)) as m eqn:Hm.
  revert a b Hm. induction m as [m IH] using lt_wf_ind. intros a b Hm Fa Fb.
  destruct (b == n0)%js eqn:E.
  - exists 1%nat, a. rewrite gcd_S, E. split; [reflexivity|]. split; [exact Fa|].
    rewrite eqb_0_rank in E by exact Fb. apply Z.eqb_eq in E. rewrite E. constructor.
  - destruct (js_rem_decreases a b Fa Fb E) as [Fr Hlt].
    destruct (IH (Z.abs_nat (rank (a mod b)%js)) ltac:(lia) b (a mod b)%js eq_refl Fb Fr)
      as (fuel & g & Hg & Fg & He).
    exists (S fuel), g. rewrite gcd_S, E. split; [exact Hg|]. split; [exact Fg|].
    rewrite eqb_0_rank in E by exact Fb. apply Z.eqb_neq in E.
    destruct (js_rem_finite a b Fa Fb E) as [_ R]. rewrite R in He.
    now constructor.
Qed.

Lemma euclid_deterministic (a b g1 g2 : Z) :
  euclid a b g1 -> euclid a b g2 -> g1 = g2.
Proof.
  intros H1. revert g2. induction H1 as [a | a b g Hb H1 IH]; intros g2 H2.
  - inversion H2; subst; [reflexivity | contradiction].
  - inversion H2; subst; [contradiction | now apply IH].
Qed.

Lemma euclid_scale (c a b g : Z) :
  0 < c -> euclid a b g -> euclid (a * c) (b * c) (g * c).
Proof.
  intros Hc H. induction H as [a | a b g Hb H IH].
  - rewrite Z.mul_0_l. constructor.
  - constructor; [nia|]. rewrite Z.mul_rem_distr_r by lia. exact IH.
Qed.

Lemma euclid_total (a b : Z) : exists g, euclid a b g.
Proof.
  remember (Z.abs_nat b) as m eqn:Hm.
  revert a b Hm. induction m as [m IH] using lt_wf_ind. intros a b Hm.
  destruct (Z.eq_dec b 0) as [-> | Nb].
  - exists a. constructor.
  - pose proof (Z.rem_bound_abs a b Nb).
    destruct (IH (Z.abs_nat (Z.rem a b)) ltac:(lia) b (Z.rem a b) eq_refl) as [g Hg].
    exists g. now constructor.
Qed.

(** On non-negative integers the recursion computes the greatest common
    divisor. *)
Lemma euclid_gcd (a b g : Z) : euclid a b g -> 0 <= a -> 0 <= b -> g = Z.gcd a b.
Proof.
  intros H. induction H as [a | a b g Hb H IH]; intros Ha Hb'.
  - rewrite Z.gcd_0_r, Z.abs_eq; lia.
  - rewrite IH; [| lia | apply Z.rem_nonneg; lia].
    rewrite Z.rem_mod_nonneg by lia.
    rewrite (Z.gcd_comm b (a mod b)), Z.gcd_mod by lia. apply Z.gcd_comm.
Qed.

(** What [coprime(n)(i)] returns on integral numbers, in terms of the
    Euclidean recursion on the integers they stand for. *)
Lemma coprime_returns (n i : number) :
  isInteger n = true -> isInteger i = true ->
  exists g, euclid (to_Z i) (to_Z n) g
            /\ returns (fun fuel => coprime fuel n i) (g =? 1).
Proof.
  intros In Ii.
  destruct (isInteger_spec n In) as [Fn Rn], (isInteger_spec i Ii) as [Fi Ri].
  destruct (gcd_returns_euclid i n Fi Fn) as (fuel & g & Hg & Fg & He).
  destruct (euclid_total (to_Z i) (to_Z n)) as [z Hz].
  exists z. split; [exact Hz|]. exists fuel. unfold coprime. rewrite Hg. cbn [option_map].
  f_equal. rewrite eqb_rank by auto using isFinite_not_NaN.
  apply (euclid_scale (2 ^ 1074)) in Hz; [|reflexivity].
  rewrite <- Ri, <- Rn in Hz. rewrite (euclid_deterministic _ _ _ _ He Hz).
  change (rank n1) with (1 * 2 ^ 1074).
  destruct (Z.eqb_spec z 1) as [-> | N].
  - apply Z.eqb_refl.
  - apply Z.eqb_neq. intros E. apply Z.mul_cancel_r in E; [contradiction | discriminate].
Qed.

(** On non-negative integers the predicate tests the greatest common
    divisor. *)
Lemma coprime_gcd (n i : number) :
  isInteger n = true -> isInteger i = true ->
  (n0 <= n)%js = true -> (n0 <= i)%js = true ->
  returns (fun fuel => coprime fuel n i) (Z.gcd (to_Z i) (to_Z n) =? 1).
Proof.
  intros In Ii Hn Hi.
  destruct (coprime_returns n i In Ii) as (g & He & Hr).
  now rewrite <- (euclid_gcd _ _ _ He (nonneg_to_Z i Ii Hi) (nonneg_to_Z n In Hn)).
Qed.

(** With a negative operand the recursion can end on -1, since [%] takes
    the sign of the dividend: [gcd(-5, 12)] is [-1]. *)
Lemma coprime_negative_operand :
  gcd 5 (-5)%float 12%float = Some (-1)%float
  /\ coprime 5 12%float (-5)%float = Some false.
Proof. split; vm_compute; reflexivity. Qed.

(** On non-negative operands the recursion with the mathematical [mod]
    computes the greatest common divisor, and it always ends. *)
Lemma euclid_mod_gcd (a b g : Z) :
  euclid_mod a b g -> 0 <= a -> 0 <= b -> g = Z.gcd a b.
Proof.
  intros H. induction H as [a | a b g Hb H IH]; intros Ha Hb0.
  - rewrite Z.gcd_0_r. lia.
  - rewrite IH; [| lia | apply Z.mod_pos_bound; lia].
    rewrite (Z.gcd_comm b (a mod b)), Z.gcd_mod by lia. apply Z.gcd_comm.
Qed.

Lemma euclid_mod_total (a b : Z) : 0 <= b -> exists g, euclid_mod a b g.
Proof.
  remember (Z.abs_nat b) as m eqn:Hm.
  revert a b Hm. induction m as [m IH] using lt_wf_ind. intros a b Hm Hb.
  destruct (Z.eq_dec b 0) as [-> | Nb].
  - exists a. constructor.
  - assert (Hm' : 0 <= a mod b < b) by (apply Z.mod_pos_bound; lia).
    destruct (IH (Z.abs_nat (a mod b)) ltac:(lia) b (a mod b) eq_refl) as [g Hg]; [lia|].
    exists g. now constructor.
Qed.

(** C6, as the code has it: for all non-negative integers [n] and [i],
    [coprime(n)(i)] returns, and it returns true if and only if the
    Euclidean recursion [gcd(a, 0) = a], [gcd(a, b) = gcd(b, a mod b)]
    takes [(i, n)] to 1, that is if and only if the greatest common divisor
    of [i] and [n] is 1; in particular [coprime(12)(5)] is true and
    [coprime(12)(6)] is false. *)
Theorem coprime_iff_gcd :
  (forall n i : number,
      isInteger n = true -> isInteger i = true ->
      (n0 <= n)%js = true -> (n0 <= i)%js = true ->
      exists r, returns (fun fuel => coprime fuel n i) r
                /\ (r = true <-> euclid_mod (to_Z i) (to_Z n) 1)
                /\ (r = true <-> Z.gcd (to_Z i) (to_Z n) = 1))
  /\ returns (fun fuel => coprime fuel 12%float 5%float) true
  /\ returns (fun fuel => coprime fuel 12%float 6%float) false.
Proof.
  split; [| split; [exists 5%nat | exists 3%nat]; vm_compute; reflexivity].
  intros n i In Ii Hn Hi.
  pose proof (nonneg_to_Z n In Hn) as Zn. pose proof (nonneg_to_Z i Ii Hi) as Zi.
  exists (Z.gcd (to_Z i) (to_Z n) =? 1).
  split; [now apply coprime_gcd|]. rewrite Z.eqb_eq. split; [|reflexivity].
  split.
  - intros E. destruct (euclid_mod_total (to_Z i) (to_Z n) Zn) as [g Hg].
    rewrite (euclid_mod_gcd _ _ _ Hg Zi Zn), E in Hg. exact Hg.
  - intros H. symmetry. now apply euclid_mod_gcd.
Qed.

Lemma coprime_iff_gcd_witness :
  exists r, returns (fun fuel => coprime fuel 12%float 35%float) r
            /\ (r = true <-> euclid_mod (to_Z 35%float) (to_Z 12%float) 1)
            /\ (r = true <-> Z.gcd (to_Z 35%float) (to_Z 12%float) = 1).
Proof. apply (proj1 coprime_iff_gcd 12%float 35%float); vm_compute; reflexivity. Defined.

(** The claim as it was worded, for every integer, fails at [n = 12],
    [i = -5]: the two are coprime, and the recursion with the mathematical
    [mod] takes [(-5, 12)] to 1 through [(12, 7)], [(7, 5)], [(5, 2)],
    [(2, 1)], [(1, 0)]; the code's [%] gives [-5 % 12 = -5], its recursion
    ends on -1, and [coprime(12)(-5)] is false. *)
Lemma coprime_false_on_coprime_pair :
  isInteger 12%float = true /\ isInteger (-5)%float = true
  /\ to_Z 12%float = 12 /\ to_Z (-5)%float = -5
  /\ returns (fun fuel => coprime fuel 12%float (-5)%float) false
  /\ euclid_mod (-5) 12 1
  /\ Z.gcd (-5) 12 = 1.
Proof.
  split; [vm_compute; reflexivity|]. split; [vm_compute; reflexivity|].
  split; [vm_compute; reflexivity|]. split; [vm_compute; reflexivity|].
  split; [exists 5%nat; vm_compute; reflexivity|].
  split; [|reflexivity].
  apply euclid_mod_step; [discriminate|]. change (-5 mod 12) with 7.
    apply euclid_mod_step; [discriminate|]. change (12 mod 7) with 5.
    apply euclid_mod_step; [discriminate|]. change (7 mod 5) with 2.
    apply euclid_mod_step; [discriminate|]. change (5 mod 2) with 1.
    apply euclid_mod_step; [discriminate|]. change (2 mod 1) with 0.
    apply euclid_mod_zero.
Qed.

(** C9: for all integers [i >= 0] and [n >= 0] the recursive [gcd]
    terminates, and so does [coprime(n)(i)], whether [i < n] or not; the
    second argument of the recursive call is an integer that is smaller
    than [n]. *)
Theorem gcd_terminates (i n : number) :
  isInteger i = true -> isInteger n = true ->
  (n0 <= i)%js = true -> (n0 <= n)%js = true ->
  terminates (fun fuel => gcd fuel i n)
  /\ terminates (fun fuel => coprime fuel n i)
  /\ ((n == n0)%js = false ->
      isInteger (i mod n)%js = true /\ 0 <= to_Z (i mod n)%js < to_Z n).
Proof.
  intros Ii In Hi Hn.
  destruct (isInteger_spec n In) as [Fn Rn], (isInteger_spec i Ii) as [Fi Ri].
  destruct (gcd_returns_euclid i n Fi Fn) as (fuel & g & Hg & _).
  split; [now exists fuel, g|].
  split; [exists fuel, (g == n1)%js; unfold coprime; now rewrite Hg|].
  intros Nz. rewrite eqb_0_rank in Nz by exact Fn. apply Z.eqb_neq in Nz.
  destruct (js_rem_finite i n Fi Fn Nz) as [F R].
  assert (HP : 0 < 2 ^ 1074) by reflexivity.
  assert (Hzn : 0 < to_Z n) by (pose proof (nonneg_to_Z n In Hn); nia).
  rewrite Ri, Rn, Z.mul_rem_distr_r in R by lia.
  unfold isInteger, to_Z at 1 2. rewrite F, R, Z.mod_mul, Z.div_mul by lia.
  split; [reflexivity|].
  apply Z.rem_bound_pos; [now apply nonneg_to_Z | exact Hzn].
Qed.

Lemma gcd_terminates_witness :
  terminates (fun fuel => gcd fuel 35%float 12%float)
  /\ terminates (fun fuel => coprime fuel 12%float 35%float)
  /\ ((12%float == n0)%js = false ->
      isInteger (js_rem 35%float 12%float) = true
      /\ 0 <= to_Z (js_rem 35%float 12%float) < to_Z 12%float).
Proof. apply (gcd_terminates 35%float 12%float); reflexivity. Defined.

(** C10: on non-negative integers [coprime(n)(i)] and [coprime(i)(n)]
    return the same truth value. *)
Theorem coprime_symmetric (i n : number) :
  isInteger i = true -> isInteger n = true ->
  (n0 <= i)%js = true -> (n0 <= n)%js = true ->
  exists r, returns (fun fuel => coprime fuel n i) r
            /\ returns (fun fuel => coprime fuel i n) r.
Proof.
  intros Ii In Hi Hn. exists (Z.gcd (to_Z i) (to_Z n) =? 1). split.
  - now apply coprime_gcd.
  - rewrite Z.gcd_comm. now apply coprime_gcd.
Qed.

Lemma coprime_symmetric_witness :
  exists r, returns (fun fuel => coprime fuel 12%float 35%float) r
            /\ returns (fun fuel => coprime fuel 35%float 12%float) r.
Proof. apply (coprime_symmetric 35%float 12%float); reflexivity. Defined.

(** * Further properties of the code *)

(** ** The recursion [gcd] and the filter [coprime] *)

Lemma euclid_abs_gcd (a b g : Z) : euclid a b g -> Z.abs g = Z.gcd a b.
Proof.
  intros H. induction H as [a | a b g Hb H IH].
  - now rewrite Z.gcd_0_r.
  - rewrite IH. rewrite (Z.rem_eq a b Hb).
    replace (a - b * Z.quot a b) with (a + (- Z.quot a b) * b) by ring.
    rewrite Z.gcd_add_mult_diag_r. apply Z.gcd_comm.
Qed.

(** X1: on integral numbers [a] and [b], of either sign, the recursion
    [gcd(a, b)] returns an integral number whose magnitude is the greatest
    common divisor of [a] and [b]. *)
Theorem gcd_magnitude (a b : number) :
  isInteger a = true -> isInteger b = true ->
  exists g, returns (fun fuel => gcd fuel a b) g
            /\ isInteger g = true
            /\ Z.abs (to_Z g) = Z.gcd (to_Z a) (to_Z b).
Proof.
  intros Ia Ib.
  destruct (isInteger_spec a Ia) as [Fa Ra], (isInteger_spec b Ib) as [Fb Rb].
  destruct (gcd_returns_euclid a b Fa Fb) as (fuel & g & Hg & Fg & He).
  exists g. split; [now exists fuel|].
  apply euclid_abs_gcd in He. rewrite Ra, Rb, Z.gcd_mul_mono_r in He.
  change (Z.abs (2 ^ 1074)) with (2 ^ 1074) in He.
  assert (HP : 0 < 2 ^ 1074) by reflexivity.
  pose proof (Z.gcd_nonneg (to_Z a) (to_Z b)) as HG.
  set (G := Z.gcd (to_Z a) (to_Z b)) in *.
  assert (Hr : rank g = G * 2 ^ 1074 \/ rank g = (- G) * 2 ^ 1074) by lia.
  unfold isInteger, to_Z at 1. rewrite Fg.
  destruct Hr as [-> | ->]; rewrite Z.mod_mul, Z.div_mul by lia;
    (split; [reflexivity | lia]).
Qed.

Lemma gcd_magnitude_witness :
  exists g, returns (fun fuel => gcd fuel (-35)%float 12%float) g
            /\ isInteger g = true
            /\ Z.abs (to_Z g) = Z.gcd (to_Z (-35)%float) (to_Z 12%float).
Proof. apply (gcd_magnitude (-35)%float 12%float); reflexivity. Defined.

(** X2: when [coprime(n)(i)] answers true on integral numbers, [i] and [n]
    are coprime.  (The converse fails with a negative operand, where the
    recursion can end on -1: see [coprime_negative_operand].) *)
Theorem coprime_sound (n i : number) (fuel : nat) :
  isInteger n = true -> isInteger i = true ->
  coprime fuel n i = Some true -> Z.gcd (to_Z i) (to_Z n) = 1.
Proof.
  intros In Ii H.
  destruct (isInteger_spec n In) as [Fn Rn], (isInteger_spec i Ii) as [Fi Ri].
  destruct (gcd_returns_euclid i n Fi Fn) as (fuel' & g' & Hg' & Fg & He).
  unfold coprime in H. destruct (gcd fuel i n) as [g |] eqn:Hg; [|discriminate].
  rewrite (gcd_deterministic _ _ _ _ _ _ Hg Hg') in H. cbn in H. injection H as H.
  rewrite eqb_rank in H by auto using isFinite_not_NaN. apply Z.eqb_eq in H.
  apply euclid_abs_gcd in He. rewrite H, Ri, Rn, Z.gcd_mul_mono_r in He.
  change (rank n1) with (1 * 2 ^ 1074) in He.
  change (Z.abs (2 ^ 1074)) with (2 ^ 1074) in He.
  change (Z.abs (1 * 2 ^ 1074)) with (1 * 2 ^ 1074) in He.
  apply Z.mul_cancel_r in He; [lia | discriminate].
Qed.

Lemma coprime_sound_witness : Z.gcd (to_Z 5%float) (to_Z (-12)%float) = 1.
Proof. apply (coprime_sound (-12)%float 5%float 5); vm_compute; reflexivity. Defined.

(** ** When [gcd] returns *)

Lemma SFrem_valid (x y : spec_float) :
  valid_binary x = true -> valid_binary y = true -> valid_binary (SFrem x y) = true.
Proof.
  intros Vx Vy.
  destruct x as [sx | sx | | sx mx ex] eqn:Ex, y as [sy | sy | | sy my ey] eqn:Ey;
    try reflexivity; try exact Vx.
  rewrite <- Ex, <- Ey. apply SFrem_finite; subst; try assumption; try reflexivity.
  cbn [SFrank valid_binary] in *. pose proof (finite_rank_bounds _ _ Vy).
  destruct sy; cbn [cond_Zopp]; lia.
Qed.

Lemma js_rem_spec (x y : number) :
  Prim2SF (x mod y)%js = SFrem (Prim2SF x) (Prim2SF y).
Proof. apply Prim2SF_SF2Prim, SFrem_valid; apply Prim2SF_valid. Qed.

Lemma eqb_0_spec (b : number) :
  (b == n0)%js = match Prim2SF b with S754_zero _ => true | _ => false end.
Proof.
  rewrite eqb_spec. change (Prim2SF n0) with (S754_zero false).
  destruct (Prim2SF b) as [s | s | | s m e]; try reflexivity; now destruct s.
Qed.

Lemma gcd_nan_r (fuel : nat) (a b : number) :
  isNaN b = true -> gcd fuel a b = None.
Proof.
  revert a b. induction fuel as [| fuel IH]; intros a b Nb; [reflexivity|].
  rewrite gcd_S, eqb_0_spec. unfold isNaN in Nb.
  destruct (Prim2SF b) eqn:Eb; try discriminate.
  apply IH. unfold isNaN. rewrite js_rem_spec, Eb. now destruct (Prim2SF a).
Qed.

Lemma gcd_rem_nan (fuel : nat) (a b : number) :
  (b == n0)%js = false -> isNaN (a mod b)%js = true -> gcd fuel a b = None.
Proof.
  intros Nz Nr. destruct fuel as [| fuel]; [reflexivity|].
  rewrite gcd_S, Nz. now apply gcd_nan_r.
Qed.

(** X3: [gcd(a, b)] returns exactly when [b] is a zero, or both operands
    are finite, or [a] is a zero and [b] an infinity.  In every other case
    (a NaN [b], an infinite [a] with a non-zero [b], a non-zero finite [a]
    with an infinite [b]) a remainder is NaN, [NaN == 0] is false, and the
    recursion never ends. *)
Theorem gcd_returns_iff (a b : number) :
  terminates (fun fuel => gcd fuel a b) <->
  (b == n0)%js = true
  \/ (isFinite a = true /\ isFinite b = true)
  \/ ((a == n0)%js = true /\ isFinite b = false /\ isNaN b = false).
Proof.
  split.
  - intros (fuel & g & H).
    destruct (b == n0)%js eqn:Eb; [now left | right].
    destruct (isFinite a) eqn:Fa, (isFinite b) eqn:Fb; [now left | right | exfalso | ].
    + destruct (isNaN b) eqn:Nb; [now rewrite gcd_nan_r in H|].
      destruct (a == n0)%js eqn:Ea; [auto | exfalso].
      (* a finite and not zero, b infinite *)
      destruct fuel as [| fuel]; [discriminate|].
      rewrite gcd_S, Eb in H.
      assert (Er : (a mod b)%js = a).
      { apply Prim2SF_inj. rewrite js_rem_spec.
        unfold isFinite, isNaN in *. rewrite eqb_0_spec in Ea.
        destruct (Prim2SF a), (Prim2SF b); try discriminate; reflexivity. }
      rewrite Er in H. rewrite gcd_rem_nan in H; [discriminate | exact Ea |].
      unfold isNaN, isFinite in *. rewrite js_rem_spec.
      destruct (Prim2SF a), (Prim2SF b); try discriminate; reflexivity.
    + rewrite gcd_rem_nan in H; [discriminate | exact Eb |].
      unfold isNaN, isFinite in *. rewrite js_rem_spec. rewrite eqb_0_spec in Eb.
      destruct (Prim2SF a), (Prim2SF b); try discriminate; reflexivity.
    + exfalso. destruct (isNaN b) eqn:Nb; [now rewrite gcd_nan_r in H|].
      rewrite gcd_rem_nan in H; [discriminate | exact Eb |].
      unfold isNaN, isFinite in *. rewrite js_rem_spec.
      destruct (Prim2SF a), (Prim2SF b); try discriminate; reflexivity.
  - intros [Eb | [[Fa Fb] | (Ea & Fb & Nb)]].
    + exists 1%nat, a. now rewrite gcd_S, Eb.
    + destruct (gcd_returns_euclid a b Fa Fb) as (fuel & g & Hg & _). now exists fuel, g.
    + exists 2%nat, b. rewrite gcd_S.
      assert (Eb : (b == n0)%js = false).
      { rewrite eqb_0_spec. unfold isFinite in Fb. now destruct (Prim2SF b). }
      rewrite Eb, gcd_S.
      replace ((a mod b) == n0)%js with true; [reflexivity|].
      symmetry. rewrite eqb_0_spec, js_rem_spec. rewrite eqb_0_spec in Ea.
      unfold isFinite, isNaN in *.
      destruct (Prim2SF a), (Prim2SF b); try discriminate; reflexivity.
Qed.

(** ** The depth of the recursion *)

Lemma Zrem_halves (x y : Z) : y <> 0 -> Z.abs y < Z.abs x -> 2 * Z.abs (Z.rem x y) < Z.abs x.
Proof.
  intros Hy Hxy. rewrite <- Z.rem_abs by exact Hy.
  assert (H0 : 0 < Z.abs y) by lia.
  pose proof (Z.rem_bound_pos (Z.abs x) (Z.abs y) ltac:(lia) H0).
  pose proof (Z.quot_rem' (Z.abs x) (Z.abs y)).
  assert (1 <= Z.quot (Z.abs x) (Z.abs y)) by (apply Z.quot_le_lower_bound; lia).
  nia.
Qed.

Lemma gcd_depth_rank (c : Z) (k : nat) (a b : number) :
  0 < c -> isFinite a = true -> isFinite b = true ->
  (c | rank a) -> (c | rank b) -> Z.abs (rank b) < c * 2 ^ Z.of_nat k ->
  exists g, gcd (2 * k + 2) a b = Some g.
Proof.
  intros Hc. revert a b. induction k as [| k IH]; intros a b Fa Fb Da Db Hb.
  - assert (E : rank b = 0).
    { destruct Db as [q Hq]. rewrite Hq in Hb |- *.
      change (Z.of_nat 0) with 0 in Hb.
      rewrite Z.pow_0_r, Z.mul_1_r, Z.abs_mul, (Z.abs_eq c) in Hb by lia.
      assert (Z.abs q = 0) by nia. assert (q = 0) by lia. subst q. reflexivity. }
    exists a. cbn [Nat.mul Nat.add]. rewrite gcd_S, eqb_0_rank, E by exact Fb. reflexivity.
  - replace (2 * S k + 2)%nat with (S (S (2 * k + 2))) by lia.
    rewrite gcd_S, eqb_0_rank by exact Fb.
    destruct (Z.eqb_spec (rank b) 0) as [E | Nb]; [eauto|].
    destruct (js_rem_finite a b Fa Fb Nb) as [Fr Rr].
    assert (Dr : (c | rank (a mod b)%js)).
    { rewrite Rr, (Z.rem_eq _ _ Nb). apply Z.divide_sub_r; [exact Da|].
      now apply Z.divide_mul_l. }
    rewrite gcd_S, eqb_0_rank by exact Fr.
    destruct (Z.eqb_spec (rank (a mod b)%js) 0) as [E | Nr]; [eauto|].
    destruct (js_rem_finite b (a mod b)%js Fb Fr Nr) as [Fr2 Rr2].
    apply IH; try assumption.
    + rewrite Rr2, (Z.rem_eq _ _ Nr). apply Z.divide_sub_r; [exact Db|].
      now apply Z.divide_mul_l.
    + rewrite Rr2.
      assert (Hlt : Z.abs (rank (a mod b)%js) < Z.abs (rank b)).
      { rewrite Rr. now apply Z.rem_bound_abs. }
      pose proof (Zrem_halves _ _ Nr Hlt).
      rewrite Nat2Z.inj_succ, Z.pow_succ_r in Hb by lia. lia.
Qed.

(** X4: the recursion is of logarithmic depth: on integral numbers with
    [|b| < 2^k], [gcd(a, b)] returns within [2k + 2] calls. *)
Theorem gcd_depth (a b : number) (k : nat) :
  isInteger a = true -> isInteger b = true ->
  Z.abs (to_Z b) < 2 ^ Z.of_nat k ->
  exists g, gcd (2 * k + 2) a b = Some g.
Proof.
  intros Ia Ib Hb.
  destruct (isInteger_spec a Ia) as [Fa Ra], (isInteger_spec b Ib) as [Fb Rb].
  apply (gcd_depth_rank (2 ^ 1074)); try assumption; try reflexivity.
  - exists (to_Z a). exact Ra.
  - exists (to_Z b). exact Rb.
  - rewrite Rb, Z.abs_mul. change (Z.abs (2 ^ 1074)) with (2 ^ 1074).
    assert (0 < 2 ^ 1074) by reflexivity. nia.
Qed.

Lemma gcd_depth_witness : exists g, gcd (2 * 4 + 2) 35%float 12%float = Some g.
Proof. apply (gcd_depth 35%float 12%float 4); reflexivity. Defined.

(** ** Summing the integers coprime to [n] *)

Lemma sumnation_loop_opt_total (fuel : nat) (f : number -> number)
  (filter : number -> bool) (next : number -> number) (b i answer : number) :
  sumnation_loop_opt fuel (fun x => Some (f x)) (fun x => Some (filter x))
    (fun x => Some (next x)) b i answer
  = sumnation_loop fuel f filter next b i answer.
Proof.
  revert i answer. induction fuel as [| fuel IH]; intros i answer; cbn; [reflexivity|].
  destruct (i <= b)%js; [|reflexivity]. destruct (filter i); apply IH.
Qed.

Lemma sumnation_loop_opt_S fuel f filter next b i answer :
  sumnation_loop_opt (S fuel) f filter next b i answer
  = if (i <= b)%js then
      match filter i with
      | None => None
      | Some keep =>
          match (if keep then option_map (fun y => (answer + y)%js) (f i)
                 else Some answer) with
          | None => None
          | Some answer' =>
              match next i with
              | None => None
              | Some i' => sumnation_loop_opt fuel f filter next b i' answer'
              end
          end
      end
    else Some answer.
Proof. reflexivity. Qed.

Lemma sumnation_loop_opt_mono (m2 m1 : nat) f filter next b i acc v :
  sumnation_loop_opt m2 f filter next b i acc = Some v -> (m2 <= m1)%nat ->
  sumnation_loop_opt m1 f filter next b i acc = Some v.
Proof.
  revert m1 i acc. induction m2 as [| m2 IH]; intros m1 i acc H Hle.
  - discriminate.
  - destruct m1 as [| m1]; [lia|].
    rewrite sumnation_loop_opt_S in H |- *.
    destruct (i <= b)%js; [|exact H].
    destruct (filter i) as [keep |]; [|discriminate].
    destruct (if keep then option_map (fun y => (acc + y)%js) (f i) else Some acc);
      [|discriminate].
    destruct (next i); [|discriminate].
    apply IH; [exact H | lia].
Qed.

Lemma coprime_mono (fuel fuel' : nat) (n i : number) (r : bool) :
  coprime fuel n i = Some r -> (fuel <= fuel')%nat -> coprime fuel' n i = Some r.
Proof.
  unfold coprime. intros H L. destruct (gcd fuel i n) as [g |] eqn:Hg; [|discriminate].
  replace fuel' with (fuel + (fuel' - fuel))%nat by lia.
  now rewrite (gcd_mono _ _ _ _ _ Hg).
Qed.

(** Enough fuel for the filter [coprime(n)] on a whole range of cursors. *)
Lemma coprime_fuel_range (n : Z) (len : nat) (k : Z) :
  safe n -> 0 <= n -> 0 <= k -> safe (k + Z.of_nat len) ->
  exists F, forall fuel j, (F <= fuel)%nat -> k <= j < k + Z.of_nat len ->
    coprime fuel (Z2F n) (Z2F j) = Some (Z.gcd j n =? 1).
Proof.
  intros Sn Hn. revert k. induction len as [| len IH]; intros k Hk Hend.
  - exists 0%nat. intros fuel j _ Hj. lia.
  - assert (Sk : safe k) by solve_safe.
    destruct (IH (k + 1)) as [F HF]; [lia | |].
    { replace (k + 1 + Z.of_nat len) with (k + Z.of_nat (S len)) by lia. exact Hend. }
    destruct (isInteger_Z2F n Sn) as [In Tn], (isInteger_Z2F k Sk) as [Ik Tk].
    destruct (coprime_gcd (Z2F n) (Z2F k) In Ik) as [Fk HFk].
    { change n0 with (Z2F 0). rewrite Z2F_leb by (assumption || solve_safe).
      now apply Z.leb_le. }
    { change n0 with (Z2F 0). rewrite Z2F_leb by (assumption || solve_safe).
      now apply Z.leb_le. }
    rewrite Tn, Tk in HFk.
    exists (Nat.max F Fk). intros fuel j Hfuel Hj.
    destruct (Z.eq_dec j k) as [-> | Nj].
    + apply (coprime_mono Fk); [exact HFk | lia].
    + apply HF; lia.
Qed.

Lemma sumnation_loop_coprime (n b : Z) (ff : nat) (len : nat) (k acc : Z) :
  safe (b + 1) -> b * (b + 1) <= 2 ^ 54 ->
  (forall j, k <= j < k + Z.of_nat len ->
     coprime ff (Z2F n) (Z2F j) = Some (Z.gcd j n =? 1)) ->
  0 <= k -> k + Z.of_nat len = b + 1 ->
  0 <= acc -> 2 * acc <= k * (k - 1) ->
  sumnation_loop_opt (S len) (fun x => Some x) (coprime ff (Z2F n))
    (fun x => Some (x + n1)%js) (Z2F b) (Z2F k) (Z2F acc)
  = Some (Z2F (coprime_sum n (Zrange k len) acc)).
Proof.
  intros Sb1 Hbb. revert k acc.
  assert (Hb0 : forall k, 0 <= k <= b + 1 -> safe k) by (intros; solve_safe).
  induction len as [| len IH]; intros k acc Hfil Hk Hlen Hacc Hinv.
  - assert (Sk : safe k) by (apply Hb0; lia).
    assert (Sbb : safe b) by solve_safe.
    rewrite sumnation_loop_opt_S, Z2F_leb by assumption.
    replace (k <=? b) with false by (symmetry; apply Z.leb_gt; lia). reflexivity.
  - assert (Sk : safe k) by (apply Hb0; lia).
    assert (Sk1 : safe (k + 1)) by (apply Hb0; lia).
    assert (Sbb : safe b) by solve_safe.
    assert (Hkk : k * (k + 1) <= b * (b + 1)) by nia.
    assert (Sacc : safe acc) by solve_safe.
    assert (Sacck : safe (acc + k)).
    { unfold safe. change (2 ^ 53) with 9007199254740992.
      change (2 ^ 54) with 18014398509481984 in Hbb. nia. }
    rewrite sumnation_loop_opt_S, Z2F_leb by assumption.
    replace (k <=? b) with true by (symmetry; apply Z.leb_le; lia).
    rewrite Hfil by lia. cbn [Zrange coprime_sum fold_left].
    rewrite (Z2F_succ k Sk Sk1).
    destruct (Z.gcd k n =? 1).
    + cbn [option_map]. rewrite Z2F_add by assumption.
      apply IH; try lia. intros j Hj. apply Hfil. lia.
    + apply IH; try lia. intros j Hj. apply Hfil. lia.
Qed.

(** X5: with the filter [coprime(n)], for integers [0 <= n <= 2^53] and
    [0 <= a <= b + 1] with [b(b+1) <= 2^54], [filtered_add] returns the
    exact sum of the integers of [a..b] that are coprime to [n]: every call
    of the filter returns, and no addition rounds.  At the script's bounds
    this is [sum_of_coprimes = 200000000000]. *)
Theorem filtered_add_coprime (n a b : Z) :
  0 <= n <= 2 ^ 53 -> 0 <= a <= b + 1 -> b * (b + 1) <= 2 ^ 54 ->
  returns (fun fuel => filtered_add_opt fuel (coprime fuel (Z2F n)) (Z2F a) (Z2F b))
          (Z2F (coprime_sum n (Zrange a (Z.to_nat (b + 1 - a))) 0)).
Proof.
  intros Hn Ha Hbb.
  assert (Hb : b + 1 <= 2 ^ 53).
  { change (2 ^ 54) with 18014398509481984 in Hbb.
    change (2 ^ 53) with 9007199254740992. nia. }
  assert (Sb1 : safe (b + 1)) by solve_safe.
  set (len := Z.to_nat (b + 1 - a)).
  assert (Hlen : a + Z.of_nat len = b + 1) by (unfold len; rewrite Z2Nat.id; lia).
  assert (Sn : safe n) by solve_safe.
  assert (Send : safe (a + Z.of_nat len)) by (rewrite Hlen; exact Sb1).
  destruct (coprime_fuel_range n len a Sn (proj1 Hn) (proj1 Ha) Send) as [F HF].
  exists (Nat.max F (S len)).
  unfold filtered_add_opt, sumnation_opt.
  set (ff := Nat.max F (S len)).
  assert (Hrun : sumnation_loop_opt (S len) (fun x => Some x) (coprime ff (Z2F n))
                   (fun x => Some (x + n1)%js) (Z2F b) (Z2F a) (Z2F 0)
                 = Some (Z2F (coprime_sum n (Zrange a len) 0))).
  { apply sumnation_loop_coprime; try assumption; try lia.
    - intros j Hj. apply HF; [unfold ff; lia | exact Hj].
    - nia. }
  apply (sumnation_loop_opt_mono (S len)); [exact Hrun | lia].
Qed.

Lemma filtered_add_coprime_witness : returns sum_of_coprimes 200000000000%float.
Proof.
  assert (E : coprime_sum 1000000 (Zrange 1 (Z.to_nat (1000000 + 1 - 1))) 0
              = 200000000000) by (vm_compute; reflexivity).
  change 200000000000%float with (Z2F 200000000000). rewrite <- E.
  apply (filtered_add_coprime 1000000 1 1000000); lia.
Defined.

(** ** The calls of the engine, and its bounds *)

Lemma sumnation_loop_run_S (f : number -> number) (filter : number -> bool)
  (next : number -> number) (b : number) (fuel : nat) (i answer : number)
  (calls : list call) :
  sumnation_loop_run (S fuel) f filter next b i answer calls
  = if (i <= b)%js then
      sumnation_loop_run fuel f filter next b (next i)
        (if filter i then (answer + f i)%js else answer)
        ((if filter i then (calls ++ [call_filter i]) ++ [call_f i]
          else calls ++ [call_filter i]) ++ [call_next i])
    else (Some answer, calls).
Proof. cbn [sumnation_loop_run]. now destruct (i <= b)%js, (filter i). Qed.

Lemma sumnation_loop_run_allowed (f : number -> number) (filter : number -> bool)
  (next : number -> number) (b : number) (fuel : nat) (i answer : number)
  (calls : list call) :
  Forall (call_allowed filter b) calls ->
  Forall (call_allowed filter b)
    (snd (sumnation_loop_run fuel f filter next b i answer calls)).
Proof.
  revert i answer calls. induction fuel as [| fuel IH]; intros i answer calls Hc.
  - exact Hc.
  - rewrite sumnation_loop_run_S. destruct (i <= b)%js eqn:E; [|exact Hc].
    apply IH. destruct (filter i) eqn:Efil;
      repeat (apply Forall_app; split); try exact Hc;
      repeat constructor; cbn; auto.
Qed.

(** The record agrees with the engine on the result, and with the record
    of a run that returns. *)
Lemma sumnation_loop_run_result (f : number -> number) (filter : number -> bool)
  (next : number -> number) (b : number) (fuel : nat) (i answer : number)
  (calls : list call) :
  fst (sumnation_loop_run fuel f filter next b i answer calls)
  = sumnation_loop fuel f filter next b i answer.
Proof.
  revert i answer calls. induction fuel as [| fuel IH]; intros i answer calls.
  - reflexivity.
  - rewrite sumnation_loop_run_S, sumnation_loop_S.
    destruct (i <= b)%js; [|reflexivity]. rewrite IH. now destruct (filter i).
Qed.

Lemma sumnation_loop_run_traced (f : number -> number) (filter : number -> bool)
  (next : number -> number) (b : number) (fuel : nat) (i answer : number)
  (calls calls' : list call) (v : number) :
  sumnation_loop_traced fuel f filter next b i answer calls = Some (v, calls') ->
  sumnation_loop_run fuel f filter next b i answer calls = (Some v, calls').
Proof.
  revert i answer calls. induction fuel as [| fuel IH]; intros i answer calls H.
  - discriminate.
  - rewrite sumnation_loop_run_S. cbn [sumnation_loop_traced] in H.
    destruct (i <= b)%js.
    + destruct (filter i); now apply IH.
    + now injection H as -> ->.
Qed.

(** The record only grows with the fuel: the calls of the first [fuel]
    iterations are the first calls of any longer run. *)
Lemma sumnation_loop_run_prefix (f : number -> number) (filter : number -> bool)
  (next : number -> number) (b : number) (fuel extra : nat) (i answer : number)
  (calls : list call) :
  exists rest,
    snd (sumnation_loop_run (fuel + extra) f filter next b i answer calls)
    = snd (sumnation_loop_run fuel f filter next b i answer calls) ++ rest.
Proof.
  revert i answer calls. induction fuel as [| fuel IH]; intros i answer calls.
  - cbn [Nat.add]. cbn [sumnation_loop_run snd].
    assert (G : forall m i answer calls, exists rest,
               snd (sumnation_loop_run m f filter next b i answer calls)
               = calls ++ rest).
    { clear. induction m as [| m IHm]; intros i answer calls.
      - exists []. cbn. now rewrite app_nil_r.
      - rewrite sumnation_loop_run_S. destruct (i <= b)%js.
        + destruct (IHm (next i) (if filter i then (answer + f i)%js else answer)
                      ((if filter i then (calls ++ [call_filter i]) ++ [call_f i]
                        else calls ++ [call_filter i]) ++ [call_next i]))
            as [rest ->].
          destruct (filter i); rewrite <- !app_assoc; eauto.
        + exists []. cbn. now rewrite app_nil_r. }
    apply G.
  - cbn [Nat.add]. rewrite !sumnation_loop_run_S. destruct (i <= b)%js.
    + apply IH.
    + exists []. now rewrite app_nil_r.
Qed.

(** X6: every call the engine makes to [filter], [f] or [next] is on a
    cursor within the bound ([x <= b]), and [f] is called only on cursors
    that pass the filter.  This is so of the calls of the first [fuel]
    iterations for every [fuel], whether the run returns or not; the
    record is that of the engine: its result is the engine's, and it is
    the trace of every run that returns. *)
Theorem sumnation_calls_allowed (f : number -> number) (filter : number -> bool)
  (next : number -> number) (a b : number) (fuel : nat) :
  Forall (call_allowed filter b) (snd (sumnation_run fuel f filter a next b))
  /\ fst (sumnation_run fuel f filter a next b) = sumnation fuel f filter a next b
  /\ (forall v calls,
      sumnation_traced fuel f filter a next b = Some (v, calls) ->
      sumnation_run fuel f filter a next b = (Some v, calls)).
Proof.
  unfold sumnation_run, sumnation, sumnation_traced. split; [|split].
  - apply sumnation_loop_run_allowed. constructor.
  - apply sumnation_loop_run_result.
  - intros v calls. apply sumnation_loop_run_traced.
Qed.

(** A run that never returns: with [next = x => x] the cursor stays at 1
    below the bound 2, and the calls of its first two iterations are
    within the bound. *)
Lemma sumnation_calls_allowed_witness :
  sumnation_run 2 (fun x => x) (fun _ => true) 1%float (fun x => x) 2%float
  = (None, [call_filter 1%float; call_f 1%float; call_next 1%float;
            call_filter 1%float; call_f 1%float; call_next 1%float])
  /\ Forall (call_allowed (fun _ => true) 2%float)
       [call_filter 1%float; call_f 1%float; call_next 1%float;
        call_filter 1%float; call_f 1%float; call_next 1%float].
Proof.
  split; [reflexivity|].
  exact (proj1 (sumnation_calls_allowed (fun x => x) (fun _ => true) (fun x => x)
                  1%float 2%float 2)).
Defined.

(** X7: from an integer start of magnitude at most [2^53], each of the four
    wrappers diverges when the end [b] is at least [2^53], in particular
    when it is [Infinity]: the cursor reaches [2^53], where [x + 1] rounds
    back to [x]. *)
Theorem wrappers_stall_past_2_53 (f : number -> number) (filter : number -> bool)
  (a : Z) (b : number) :
  Z.abs a <= 2 ^ 53 -> (Z2F (2 ^ 53) <= b)%js = true ->
  diverges (fun fuel => add fuel (Z2F a) b)
  /\ diverges (fun fuel => filtered_add fuel filter (Z2F a) b)
  /\ diverges (fun fuel => addition fuel f (Z2F a) b)
  /\ diverges (fun fuel => filtered_addition fuel f filter (Z2F a) b).
Proof.
  intros Ha Hb. repeat split; intros fuel;
    unfold add, filtered_add, addition, filtered_addition, sumnation;
    now apply successor_stalls.
Qed.

Lemma wrappers_stall_past_2_53_witness :
  diverges (fun fuel => add fuel (Z2F 1) infinity)
  /\ diverges (fun fuel => filtered_add fuel (fun _ => false) (Z2F 1) infinity)
  /\ diverges (fun fuel => addition fuel cube (Z2F 1) infinity)
  /\ diverges (fun fuel => filtered_addition fuel cube (fun _ => false) (Z2F 1) infinity).
Proof.
  apply (wrappers_stall_past_2_53 cube (fun _ => false) 1 infinity);
    [lia | reflexivity].
Defined.

(** X8: when either bound is NaN the engine returns 0 and calls none of
    its function arguments: the loop condition [i <= b] is false at once. *)
Theorem sumnation_NaN_bound (f : number -> number) (filter : number -> bool)
  (next : number -> number) (a b : number) (fuel : nat) :
  isNaN a = true \/ isNaN b = true ->
  sumnation_traced (S fuel) f filter a next b = Some (n0, []).
Proof.
  intros H. unfold sumnation_traced. cbn [sumnation_loop_traced].
  destruct (a <= b)%js eqn:E; [|reflexivity].
  destruct (leb_true_not_NaN _ _ E) as [Na Nb]. destruct H; congruence.
Qed.

Lemma sumnation_NaN_bound_witness :
  sumnation_traced 1 cube (fun _ => true) 1%float (fun x => (x + n1)%js) nan
  = Some (n0, []).
Proof.
  apply (sumnation_NaN_bound cube (fun _ => true) (fun x => (x + n1)%js) 1%float nan 0).
  right. reflexivity.
Defined.

(** ** [simpsons_rule] without subintervals, and the zeta sums *)

Lemma mul_0_r_zero_or_NaN (x : number) :
  (x * n0 == n0)%js = true \/ isNaN (x * n0)%js = true.
Proof.
  rewrite eqb_0_spec. unfold isNaN. rewrite mul_spec.
  change (Prim2SF n0) with (S754_zero false).
  destruct (Prim2SF x); cbn; auto.
Qed.

(** X9: with a negative number of subintervals, or NaN,
    [simpsons_rule] returns [(h/3) * 0] whatever the integrand is, and this
    is a zero or NaN: the sum is empty and no error is signalled. *)
Theorem simpsons_rule_no_subinterval (f : number -> number) (a b n : number)
  (fuel : nat) :
  (n0 > n)%js = true \/ isNaN n = true ->
  let r := ((b - a) / n / n3 * n0)%js in
  simpsons_rule (S fuel) f a b n = Some r
  /\ ((r == n0)%js = true \/ isNaN r = true).
Proof.
  intros H r. split; [|apply mul_0_r_zero_or_NaN].
  assert (E : (n0 <= n)%js = false).
  { destruct H as [H | H]; [now apply gt_not_le|].
    destruct (n0 <= n)%js eqn:E; [|reflexivity].
    destruct (leb_true_not_NaN _ _ E). congruence. }
  unfold simpsons_rule, addition, sumnation. rewrite sumnation_loop_S, E. reflexivity.
Qed.

Lemma simpsons_rule_no_subinterval_witness :
  simpsons_rule 1 cube 0%float 1%float (-4)%float
  = Some ((1 - 0) / (-4) / n3 * n0)%float
  /\ ((((1 - 0) / (-4) / n3 * n0)%float == n0)%js = true
      \/ isNaN ((1 - 0) / (-4) / n3 * n0)%float = true).
Proof.
  apply (simpsons_rule_no_subinterval cube 0%float 1%float (-4)%float 0).
  left. reflexivity.
Defined.

Lemma Prim2SF_nan (x : number) : Prim2SF x = S754_nan -> x = nan.
Proof. intros H. apply Prim2SF_inj. rewrite H. reflexivity. Qed.

(** X10: with [n = 0] (either zero), [simpsons_rule] samples the integrand
    once, at NaN: [h = (b - a)/0] is an infinity or NaN, so [0 * h] is NaN.
    Its result [(h/3) * (0 + f(NaN))] is never a finite number. *)
Theorem simpsons_rule_zero_subintervals (f : number -> number) (a b n : number)
  (fuel : nat) :
  (n == n0)%js = true ->
  let r := ((b - a) / n / n3 * (n0 + f nan))%js in
  simpsons_rule (S (S fuel)) f a b n = Some r /\ isFinite r = false.
Proof.
  intros Hn r. rewrite eqb_0_spec in Hn.
  set (h := ((b - a) / n)%js).
  assert (Hh : Prim2SF h = S754_nan \/ exists s, Prim2SF h = S754_infinity s).
  { unfold h. rewrite div_spec. destruct (Prim2SF n) as [sn | | |]; try discriminate.
    destruct (Prim2SF (b - a)%js) as [s | s | | s m e]; cbn; eauto. }
  assert (Hh3 : Prim2SF (h / n3)%js = S754_nan
                \/ exists s, Prim2SF (h / n3)%js = S754_infinity s).
  { rewrite div_spec. change (Prim2SF n3) with (S754_finite false 6755399441055744 (-51)).
    destruct Hh as [-> | [s ->]]; cbn; eauto. }
  split.
  - assert (Ey : (a + n0 * h)%js = nan).
    { apply Prim2SF_nan. rewrite add_spec, mul_spec.
      change (Prim2SF n0) with (S754_zero false).
      destruct Hh as [-> | [s ->]]; cbn; now destruct (Prim2SF a). }
    assert (E1 : (n0 <= n)%js = true).
    { rewrite leb_spec. change (Prim2SF n0) with (S754_zero false).
      now destruct (Prim2SF n). }
    assert (E2 : (n1 <= n)%js = false).
    { rewrite leb_spec. change (Prim2SF n1) with (S754_finite false 4503599627370496 (-52)).
      now destruct (Prim2SF n). }
    unfold simpsons_rule, addition, sumnation. fold h.
    rewrite sumnation_loop_S, E1, sumnation_loop_S.
    change (n0 + n1)%js with n1. rewrite E2.
    unfold simpson_coefficient, simpson_y.
    change (n0 === n0)%js with true. cbv iota. rewrite Ey. reflexivity.
  - unfold r, isFinite. fold h. rewrite mul_spec.
    destruct Hh3 as [-> | [s ->]]; [reflexivity|].
    destruct (Prim2SF (n0 + f nan)%js) as [s' | s' | | s' m e]; reflexivity.
Qed.

Lemma simpsons_rule_zero_subintervals_witness :
  simpsons_rule 2 cube 0%float 1%float 0%float
  = Some ((1 - 0) / 0 / n3 * (n0 + cube nan))%float
  /\ isFinite ((1 - 0) / 0 / n3 * (n0 + cube nan))%float = false.
Proof.
  apply (simpsons_rule_zero_subintervals cube 0%float 1%float 0%float 0).
  reflexivity.
Defined.

(** X11: whatever the exponentiation operator computes,
    [riemann_zeta_function(s)] returns for every [s], and its result is the
    sum of [1 / k ** s] for [k = 1, ..., 1000000], added in this order from
    0; [gamma_expression(m)] returns [(-1) ** m] times that sum divided by
    [m]. *)
Theorem riemann_zeta_function_returns (pow : number -> number -> number) (s : number) :
  returns (fun fuel => riemann_zeta_function pow fuel s)
    (accumulate (inverse_exponentiation pow s) (fun _ => true)
       (Zrange 1 (Z.to_nat 1000000)) n0)
  /\ (forall m,
      returns (fun fuel => gamma_expression pow fuel m)
        (pow (-1)%float m *
         (accumulate (inverse_exponentiation pow m) (fun _ => true)
            (Zrange 1 (Z.to_nat 1000000)) n0 / m))%js).
Proof.
  assert (H : forall s, riemann_zeta_function pow (S (Z.to_nat (1000000 + 1 - 1))) s
              = Some (accumulate (inverse_exponentiation pow s) (fun _ => true)
                        (Zrange 1 (Z.to_nat 1000000)) n0)).
  { intros t. unfold riemann_zeta_function, addition.
    change lower_limit with (Z2F 1). change upper_limit with (Z2F 1000000).
    apply sumnation_range; solve_safe. }
  split.
  - eexists. apply H.
  - intros m. eexists. unfold gamma_expression. rewrite H. reflexivity.
Qed.

(** ** Summing the integers that pass a filter *)

Lemma accumulate_filtered_sum (filter : number -> bool) (b : Z) (len : nat)
  (k acc : Z) :
  b * (b + 1) <= 2 ^ 54 -> 0 <= k -> k + Z.of_nat len = b + 1 ->
  0 <= acc -> 2 * acc <= k * (k - 1) ->
  accumulate (fun x => x) filter (Zrange k len) (Z2F acc)
  = Z2F (filtered_sum filter (Zrange k len) acc).
Proof.
  intros Hbb. revert k acc.
  induction len as [| len IH]; intros k acc Hk Hlen Hacc Hinv; [reflexivity|].
  assert (Hkk : k * (k + 1) <= b * (b + 1)) by nia.
  assert (Sk : safe k).
  { unfold safe. change (2 ^ 53) with 9007199254740992.
    change (2 ^ 54) with 18014398509481984 in Hbb. nia. }
  assert (Sacc : safe acc).
  { unfold safe. change (2 ^ 53) with 9007199254740992.
    change (2 ^ 54) with 18014398509481984 in Hbb. nia. }
  assert (Sacck : safe (acc + k)).
  { unfold safe. change (2 ^ 53) with 9007199254740992.
    change (2 ^ 54) with 18014398509481984 in Hbb. nia. }
  unfold accumulate, filtered_sum in *. cbn [Zrange fold_left].
  destruct (filter (Z2F k)).
  - rewrite Z2F_add by assumption. apply IH; lia.
  - apply IH; lia.
Qed.

(** X12: for every filter and integers [0 <= a <= b + 1] with
    [b(b+1) <= 2^54], [filtered_add(filter, a, b)] returns the exact sum of
    the integers of [a..b] that pass the filter. *)
Theorem filtered_add_sum (filter : number -> bool) (a b : Z) :
  0 <= a <= b + 1 -> b * (b + 1) <= 2 ^ 54 ->
  returns (fun fuel => filtered_add fuel filter (Z2F a) (Z2F b))
          (Z2F (filtered_sum filter (Zrange a (Z.to_nat (b + 1 - a))) 0)).
Proof.
  intros Ha Hbb.
  assert (Hb : b + 1 <= 2 ^ 53).
  { change (2 ^ 54) with 18014398509481984 in Hbb.
    change (2 ^ 53) with 9007199254740992. nia. }
  exists (S (Z.to_nat (b + 1 - a))). unfold filtered_add.
  rewrite sumnation_range by (solve_safe || lia).
  apply f_equal. rewrite <- Z2F_0. apply (accumulate_filtered_sum filter b); try lia.
  nia.
Qed.

Lemma filtered_add_sum_witness :
  returns (fun fuel => filtered_add fuel (fun x => (x mod n2 == n0)%js)
                         1%float 10%float) 30%float.
Proof.
  change 30%float
    with (Z2F (filtered_sum (fun x => (x mod n2 == n0)%js)
                 (Zrange 1 (Z.to_nat (10 + 1 - 1))) 0)).
  apply (filtered_add_sum (fun x => (x mod n2 == n0)%js) 1 10); lia.
Defined.

(** ** Rounding a non-zero value does not give a zero *)

Lemma shr_1_mantissa (mrs : shr_record) :
  0 <= shr_m mrs -> shr_m (shr_1 mrs) = shr_m mrs / 2.
Proof.
  destruct mrs as [m r s]. cbn [shr_m]. intros Hm.
  destruct m as [| [p | p |] | p]; cbn [shr_1 shr_m]; try lia.
  - reflexivity.
  - rewrite Pos2Z.inj_xI. apply (Z.div_unique _ 2 _ 1); lia.
  - rewrite Pos2Z.inj_xO. apply (Z.div_unique _ 2 _ 0); lia.
  - reflexivity.
Qed.

Lemma iter_shr_1_mantissa (k : nat) (mrs : shr_record) :
  0 <= shr_m mrs ->
  shr_m (Nat.iter k shr_1 mrs) = shr_m mrs / 2 ^ Z.of_nat k.
Proof.
  intros Hm. induction k as [| k IH].
  - cbn [Nat.iter]. change (Z.of_nat 0) with 0. now rewrite Z.pow_0_r, Z.div_1_r.
  - rewrite Nat.iter_succ, shr_1_mantissa.
    + rewrite IH, Nat2Z.inj_succ, Z.pow_succ_r, Z.div_div by lia.
      f_equal. lia.
    + rewrite IH. apply Z.div_pos; [exact Hm | apply Z.pow_pos_nonneg; lia].
Qed.

Lemma shr_record_of_loc_mantissa (m : Z) (l : location) :
  shr_m (shr_record_of_loc m l) = m.
Proof. destruct l as [| []]; reflexivity. Qed.

(** Above the least exponent, the shift to the format's exponent keeps at
    least one significant bit. *)
Lemma shr_fexp_positive (m : positive) (e : Z) (l : location) :
  emin <= e ->
  0 < shr_m (fst (shr_fexp prec emax (Z.pos m) e l))
  /\ emin <= snd (shr_fexp prec emax (Z.pos m) e l).
Proof.
  intros He. unfold shr_fexp, shr. cbn [Zdigits2].
  pose proof (digits2_pos_bounds m) as [Hl _].
  set (d := Z.pos (digits2_pos m)) in *.
  destruct (fexp prec emax (d + e) - e) as [| p | p] eqn:D; cbn [fst snd].
  - rewrite shr_record_of_loc_mantissa. lia.
  - rewrite iter_pos_nat, iter_shr_1_mantissa, shr_record_of_loc_mantissa,
      positive_nat_Z by (rewrite shr_record_of_loc_mantissa; lia).
    unfold fexp in D.
    assert (Hp : Z.pos p = d - prec) by lia.
    split; [|lia].
    assert (Hd : 0 < d) by (unfold d; lia).
    assert (Hprec : 0 < prec) by reflexivity.
    apply Z.div_str_pos. split; [apply Z.pow_pos_nonneg; lia|].
    eapply Z.le_trans; [|exact Hl]. apply Z.pow_le_mono_r; lia.
  - rewrite shr_record_of_loc_mantissa. lia.
Qed.

Lemma round_nearest_even_positive (m : Z) (l : location) :
  0 < m -> 0 < round_nearest_even m l.
Proof.
  intros Hm. destruct l as [| []]; cbn [round_nearest_even]; try lia.
  destruct (Z.even m); lia.
Qed.

Lemma binary_round_aux_not_zero (s s' : bool) (m : positive) (e : Z) (l : location) :
  emin <= e -> binary_round_aux prec emax s (Z.pos m) e l <> S754_zero s'.
Proof.
  intros He. unfold binary_round_aux.
  destruct (shr_fexp_positive m e l He) as [H1 H1e].
  destruct (shr_fexp prec emax (Z.pos m) e l) as [mrs' e']. cbn [fst snd] in H1, H1e.
  pose proof (round_nearest_even_positive _ (loc_of_shr_record mrs') H1) as H2.
  destruct (round_nearest_even (shr_m mrs') (loc_of_shr_record mrs')) as [| m2 | m2];
    try lia.
  destruct (shr_fexp_positive m2 e' loc_Exact H1e) as [H3 _].
  destruct (shr_fexp prec emax (Z.pos m2) e' loc_Exact) as [mrs'' e'']. cbn [fst] in H3.
  destruct (shr_m mrs'') as [| m3 | m3]; try lia.
  destruct (e'' <=? emax - prec); discriminate.
Qed.

Lemma binary_round_not_zero (s s' : bool) (m : positive) (e : Z) :
  emin <= e -> binary_round prec emax s m e <> S754_zero s'.
Proof.
  intros He. unfold binary_round.
  assert (Hf : emin <= fexp prec emax (Z.pos (digits2_pos m) + e)) by (unfold fexp; lia).
  set (E := fexp prec emax (Z.pos (digits2_pos m) + e)) in *.
  assert (Hez : emin <= snd (shl_align m e E)).
  { unfold shl_align. destruct (E - e); cbn [snd]; lia. }
  destruct (shl_align m e E) as [mz ez]. cbn [snd] in Hez.
  now apply binary_round_aux_not_zero.
Qed.

(** A sum is the negative zero only when both terms are. *)
Lemma SFadd_neg_zero (x y : spec_float) :
  valid_binary x = true -> valid_binary y = true ->
  SFadd prec emax x y = S754_zero true -> x = S754_zero true.
Proof.
  intros Vx Vy H.
  destruct x as [sx | sx | | sx mx ex], y as [sy | sy | | sy my ey];
    cbn [SFadd] in H; try discriminate H.
  - destruct sx, sy; try discriminate H; reflexivity.
  - destruct sx, sy; discriminate H.
  - exfalso. cbn [valid_binary] in Vx, Vy.
    apply bounded_inv in Vx, Vy.
    set (ez := Z.min ex ey) in *.
    destruct (cond_Zopp sx (Z.pos (fst (shl_align mx ex ez)))
              + cond_Zopp sy (Z.pos (fst (shl_align my ey ez)))) as [| m | m];
      cbn [binary_normalize] in H; try discriminate H;
      revert H; apply binary_round_not_zero; lia.
Qed.

Lemma number_add_not_neg_zero (x y : number) :
  Prim2SF x <> S754_zero true -> Prim2SF (x + y)%js <> S754_zero true.
Proof.
  intros Hx H. apply Hx. rewrite add_spec in H.
  apply (SFadd_neg_zero _ (Prim2SF y)); [apply Prim2SF_valid | apply Prim2SF_valid | exact H].
Qed.

Lemma number_add_0_r (x : number) : Prim2SF x <> S754_zero true -> (x + n0)%js = x.
Proof.
  intros Hx. apply Prim2SF_inj. rewrite add_spec.
  change (Prim2SF n0) with (S754_zero false).
  destruct (Prim2SF x) as [[|] | | |]; try reflexivity. now elim Hx.
Qed.

Lemma sumnation_loop_fold_filter (f : number -> number) (filter : number -> bool)
  (next : number -> number) (b : number) (fuel : nat) (i answer : number) :
  Prim2SF answer <> S754_zero true ->
  sumnation_loop fuel f filter next b i answer
  = sumnation_loop fuel (fun x => if filter x then f x else n0) (fun _ => true)
      next b i answer.
Proof.
  revert i answer. induction fuel as [| fuel IH]; intros i answer Ha; [reflexivity|].
  rewrite !sumnation_loop_S. destruct (i <= b)%js; [|reflexivity].
  destruct (filter i).
  - apply IH. now apply number_add_not_neg_zero.
  - rewrite number_add_0_r by exact Ha. now apply IH.
Qed.

(** X13: a filter can be folded into the transform.  The engine with [f]
    and [filter] computes what it computes with the transform
    [x => filter(x) ? f(x) : 0] and the always-true filter, for every
    amount of fuel; so [filtered_addition(f, filter, a, b)] is [addition] of
    that transform, and [filtered_add(filter, a, b)] is
    [addition(x => filter(x) ? x : 0, a, b)].  The accumulator starts at +0
    and a sum is -0 only when both terms are, so adding +0 to it changes
    nothing. *)
Theorem filter_folds_into_transform (f : number -> number) (filter : number -> bool)
  (a b : number) (fuel : nat) :
  (forall next,
     sumnation fuel f filter a next b
     = sumnation fuel (fun x => if filter x then f x else n0) (fun _ => true) a next b)
  /\ filtered_addition fuel f filter a b
     = addition fuel (fun x => if filter x then f x else n0) a b
  /\ filtered_add fuel filter a b
     = addition fuel (fun x => if filter x then x else n0) a b.
Proof.
  assert (H : forall g next,
            sumnation fuel g filter a next b
            = sumnation fuel (fun x => if filter x then g x else n0) (fun _ => true)
                a next b).
  { intros g next. unfold sumnation. apply sumnation_loop_fold_filter. discriminate. }
  split; [apply H|]. split; apply H.
Qed.
